(** * seclang: macro expansion, the [rx] operator, the [deny] action and
    the names view of named collections.

    A shallow embedding of the Go sources and the properties that the
    specification states about them.  Go strings are byte sequences and are
    modelled by [string] (a list of 8-bit [ascii]); Go [int] values are
    modelled by [Z]; Go maps by [gmap]. *)

From Stdlib Require Import ZArith Ascii String List.
From stdpp Require Import base gmap list strings.

Local Open Scope string_scope.
Local Open Scope Z_scope.

(** ** Results of fallible functions: Go's [(value, error)] pairs. *)

Inductive result (A E : Type) : Type :=
| Ok (a : A)
| Err (e : E).
Arguments Ok {A E} a.
Arguments Err {A E} e.

Definition is_Ok {A E} (r : result A E) : bool :=
  match r with Ok _ => true | Err _ => false end.

(** ** Byte and string helpers (Go standard library, [strings] package). *)

Definition byte_eqb (a b : ascii) : bool := Ascii.eqb a b.

Definition byte_val (c : ascii) : Z := Z.of_N (N_of_ascii c).

Definition byte_of_Z (v : Z) : ascii := ascii_of_N (Z.to_N (v mod 256)).

(** [strings.Cut(s, ".")]: the text before the first [.], the text after
    it, and whether a [.] was found. *)
Fixpoint strings_Cut_dot (s : string) : string * string * bool :=
  match s with
  | EmptyString => (EmptyString, EmptyString, false)
  | String c rest =>
      if byte_eqb c "." then (EmptyString, rest, true)
      else
        match strings_Cut_dot rest with
        | (before, after, found) => (String c before, after, found)
        end
  end.

(** [strings.ToLower] on one byte of an ASCII string. *)
Definition byte_ToLower (c : ascii) : ascii :=
  let v := byte_val c in
  if (65 <=? v) && (v <=? 90) then byte_of_Z (v + 32) else c.

(** [strings.ToLower], on the bytes [A]..[Z]; other bytes are kept. *)
Fixpoint strings_ToLower (s : string) : string :=
  match s with
  | EmptyString => EmptyString
  | String c rest => String (byte_ToLower c) (strings_ToLower rest)
  end.

(** [strings.Join(elems, sep)] *)
Definition strings_Join (elems : list string) (sep : string) : string :=
  match elems with
  | [] => EmptyString
  | e :: rest => foldl (fun b s => b ++ sep ++ s) e rest
  end.

(** ** Package [variables]: the rule variables.

    The table of variables belongs to a library outside the repository; it
    is a parameter of the development. *)

Class Variables := {
  RuleVariable : Type;
  RuleVariable_eq_dec :: EqDecision RuleVariable;
  (** [variables.Unknown] *)
  Unknown : RuleVariable;
  (** [variables.Parse]: [None] stands for the error result. *)
  variables_Parse : string -> option RuleVariable;
  (** [RuleVariable.Name] *)
  RuleVariable_Name : RuleVariable -> string;
}.

(** ** Package [types]: match records and interruptions. *)

Module types.
Section with_variables.
Context `{Variables}.

(** [corazarules.MatchData], seen through [types.MatchData]. *)
Record MatchData := {
  Variable_ : RuleVariable;
  Key_ : string;
  Value_ : string;
}.

Record Interruption := {
  RuleID : Z;
  Action : string;
  Status : Z;
}.
End with_variables.
End types.

(** ** Package [collection]: the kinds of collection a type switch tells
    apart. *)

Module collection.
Section with_variables.
Context `{Variables}.

(** [collection.Keyed] *)
Record Keyed := {
  Keyed_Get : string -> list string;
  Keyed_FindAll : list types.MatchData;
}.

(** [collection.Single] *)
Record Single := {
  Single_Get : string;
  Single_FindAll : list types.MatchData;
}.

(** A [collection.Collection] value together with its dynamic kind. *)
Inductive Collection :=
| IsKeyed (col : Keyed)
| IsSingle (col : Single)
| IsOther (FindAll : list types.MatchData).
End with_variables.
End collection.

(** ** Package [plugintypes]: what operators, actions and macros see of a
    transaction. *)

Module plugintypes.
Section with_variables.
Context `{Variables}.

(** One event of the debug logger: level, fields and message. *)
Record LogEvent := {
  log_level : string;
  log_fields : list (string * string);
  log_msg : string;
}.

(** Modelled from the spec: the transaction behind the [TransactionState]
    interface, whose implementation is not among the sources.  It holds
    the capturing flag, the capture slots, the interruption, the
    collections and the debug log; [tx_captureCalls] is the history of
    [CaptureField] calls, most recent last. *)
Record TransactionState := {
  tx_Capturing : bool;
  tx_captures : gmap Z string;
  tx_captureCalls : list (Z * string);
  tx_interruption : option types.Interruption;
  tx_Collection : RuleVariable -> collection.Collection;
  tx_debugLog : list LogEvent;
}.

Definition Capturing (tx : TransactionState) : bool := tx_Capturing tx.

(** Modelled from the spec: [CaptureField(index, value)] stores [value]
    in capture slot [index].  The slots are kept as a component of their
    own; what else the call does to a transaction (where an implementation
    keeps the slots, what it logs) is not modelled, and the statements
    about the operator speak of the calls and of the slots only. *)
Definition CaptureField (index : Z) (value : string)
    (tx : TransactionState) : TransactionState :=
  {| tx_Capturing := tx_Capturing tx;
     tx_captures := <[index := value]> (tx_captures tx);
     tx_captureCalls := tx_captureCalls tx ++ [(index, value)];
     tx_interruption := tx_interruption tx;
     tx_Collection := tx_Collection tx;
     tx_debugLog := tx_debugLog tx |}.

(** Modelled from the spec: [Interrupt(interruption)] records the
    interruption on the transaction. *)
Definition Interrupt (i : types.Interruption)
    (tx : TransactionState) : TransactionState :=
  {| tx_Capturing := tx_Capturing tx;
     tx_captures := tx_captures tx;
     tx_captureCalls := tx_captureCalls tx;
     tx_interruption := Some i;
     tx_Collection := tx_Collection tx;
     tx_debugLog := tx_debugLog tx |}.

Definition Collection (tx : TransactionState) (v : RuleVariable)
    : collection.Collection := tx_Collection tx v.

(** [tx.DebugLogger().Warn()....Msg(msg)] *)
Definition DebugLogger_Warn (fields : list (string * string)) (msg : string)
    (tx : TransactionState) : TransactionState :=
  {| tx_Capturing := tx_Capturing tx;
     tx_captures := tx_captures tx;
     tx_captureCalls := tx_captureCalls tx;
     tx_interruption := tx_interruption tx;
     tx_Collection := tx_Collection tx;
     tx_debugLog :=
       tx_debugLog tx
         ++ [{| log_level := "warn"; log_fields := fields; log_msg := msg |}] |}.

(** [RuleMetadata]: the getters the [deny] action reads. *)
Record RuleMetadata := {
  ID : Z;
  ParentID : Z;
  Status : Z;
}.

Record OperatorOptions := {
  Arguments_ : string;
}.
End with_variables.
End plugintypes.

(** ** Package [macro] *)

Module macro.
Section with_variables.
Context `{Variables}.

Record macroToken := {
  text : string;
  variable : RuleVariable;
  key : string;
}.

Record macro := {
  original : string;
  tokens : list macroToken;
}.

Inductive error :=
| errEmptyData
| errEmptyMacro
| errEmptyVariableName
| errUnknownVariable (varName : string)
| errMalformedVariable (start : string)
| errNoClosingBraces.

Definition isValidMacroChar (c : ascii) : bool :=
  let v := byte_val c in
  byte_eqb c "[" || byte_eqb c "]" || byte_eqb c "." || byte_eqb c "_"
  || byte_eqb c "-"
  || ((48 <=? v) && (v <=? 57))
  || ((65 <=? v) && (v <=? 90))
  || ((97 <=? v) && (v <=? 122)).

(** A literal token. *)
Definition literalToken (s : string) : macroToken :=
  {| text := s; variable := Unknown; key := EmptyString |}.

(** [if currentToken.Len() > 0 { m.tokens = append(m.tokens, ...) }] *)
Definition flushLiteral (tokens : list macroToken) (currentToken : string)
    : list macroToken :=
  match currentToken with
  | EmptyString => tokens
  | _ => tokens ++ [literalToken currentToken]
  end.

(** The body of [compile]'s loop from position [i] on: [input] is
    [input[i:]] and [prev] is [input[i-1]], which the loop reads only
    inside a reference, where it exists. *)
Fixpoint compile_loop (input : string) (prev : ascii)
    (tokens : list macroToken) (currentToken : string) (isMacro : bool)
    : result (list macroToken) error :=
  match input with
  | EmptyString => Ok (flushLiteral tokens currentToken)
  | String c rest =>
      let step :=
        if isMacro then
          if byte_eqb c "}" then
            if byte_eqb prev "." then Err errEmptyVariableName
            else
              match strings_Cut_dot currentToken with
              | (varName, k, _) =>
                  match variables_Parse varName with
                  | None => Err (errUnknownVariable varName)
                  | Some v =>
                      compile_loop rest c
                        (tokens ++ [{| text := currentToken;
                                       variable := v;
                                       key := strings_ToLower k |}])
                        EmptyString false
                  end
              end
          else if negb (isValidMacroChar c) then
            Err (errMalformedVariable ("%{" ++ currentToken))
          else
            match rest with
            | EmptyString => Err errNoClosingBraces
            | _ => compile_loop rest c tokens
                     (currentToken ++ String c EmptyString) true
            end
        else
          compile_loop rest c tokens
            (currentToken ++ String c EmptyString) false
      in
      match rest with
      | String c' rest' =>
          if byte_eqb c "%" && byte_eqb c' "{" then
            compile_loop rest' c' (flushLiteral tokens currentToken)
              EmptyString true
          else step
      | EmptyString => step
      end
  end.

(** [(m *macro) compile(input)]: the macro after the call, or the error. *)
Definition compile (m : macro) (input : string) : result macro error :=
  match input with
  | EmptyString => Err errEmptyMacro
  | _ =>
      match compile_loop input "000"%char (tokens m) EmptyString false with
      | Ok ts => Ok {| original := input; tokens := ts |}
      | Err e => Err e
      end
  end.

Definition NewMacro (data : string) : result macro error :=
  match data with
  | EmptyString => Err errEmptyData
  | _ => compile {| original := EmptyString; tokens := [] |} data
  end.

Definition expandToken (tx : plugintypes.TransactionState)
    (token : macroToken) : string * plugintypes.TransactionState :=
  if decide (variable token = Unknown) then (text token, tx)
  else
    let notFound :=
      (text token,
       plugintypes.DebugLogger_Warn
         [("variable", RuleVariable_Name (variable token));
          ("key", key token)]
         "key not found in collection, returning the original text" tx) in
    match plugintypes.Collection tx (variable token) with
    | collection.IsKeyed col =>
        match collection.Keyed_Get col (key token) with
        | c0 :: _ => (c0, tx)
        | [] => notFound
        end
    | collection.IsSingle col => (collection.Single_Get col, tx)
    | collection.IsOther all =>
        match all with
        | c0 :: _ => (types.Value_ c0, tx)
        | [] => notFound
        end
    end.

(** The loop of [Expand]: the builder [res] and the transaction are
    threaded through the tokens. *)
Fixpoint expandTokens (tx : plugintypes.TransactionState)
    (ts : list macroToken) (res : string)
    : string * plugintypes.TransactionState :=
  match ts with
  | [] => (res, tx)
  | token :: ts' =>
      let '(s, tx') := expandToken tx token in
      expandTokens tx' ts' (res ++ s)
  end.

Definition Expand (m : macro) (tx : plugintypes.TransactionState)
    : string * plugintypes.TransactionState :=
  match tokens m with
  | [token] => expandToken tx token
  | ts => expandTokens tx ts EmptyString
  end.

Definition String_ (m : macro) : string := original m.

(** [IsExpandable]: [len(m.tokens) > 1] *)
Definition IsExpandable (m : macro) : bool := (1 <? length (tokens m))%nat.
End with_variables.
End macro.

(** ** Standard library: [strconv] and [unicode/utf8] *)

(** [unhex] of [strconv]: the value of a hexadecimal digit. *)
Definition unhex (c : ascii) : option Z :=
  let v := byte_val c in
  if (48 <=? v) && (v <=? 57) then Some (v - 48)
  else if (97 <=? v) && (v <=? 102) then Some (v - 97 + 10)
  else if (65 <=? v) && (v <=? 70) then Some (v - 65 + 10)
  else None.

(** [strconv.UnquoteChar(s, 0)] on a text [s] that starts with a backslash
    and an [x] followed by the two bytes [h1] and [h2], the only shape
    [matchesArbitraryBytes] calls it with: the value of the escape, or
    [None] for a syntax error.  The result is never multibyte. *)
Definition strconv_UnquoteChar_x (h1 h2 : ascii) : option Z :=
  match unhex h1, unhex h2 with
  | Some a, Some b => Some (Z.lor (Z.shiftl a 4) b)
  | _, _ => None
  end.

Definition in_range (lo hi b : Z) : bool := (lo <=? b) && (b <=? hi).

(** The accepted range of the second byte of a sequence that starts with
    [b0], with the length of the sequence; [None] for a byte that cannot
    start a sequence. *)
Definition utf8_first (b0 : Z) : option (nat * Z * Z) :=
  if in_range 194 223 b0 then Some (2%nat, 128, 191)
  else if b0 =? 224 then Some (3%nat, 160, 191)
  else if in_range 225 236 b0 then Some (3%nat, 128, 191)
  else if b0 =? 237 then Some (3%nat, 128, 159)
  else if in_range 238 239 b0 then Some (3%nat, 128, 191)
  else if b0 =? 240 then Some (4%nat, 144, 191)
  else if in_range 241 243 b0 then Some (4%nat, 128, 191)
  else if b0 =? 244 then Some (4%nat, 128, 143)
  else None.

(** [utf8.Valid] on the byte values of a slice. *)
Fixpoint utf8_Valid_values (p : list Z) : bool :=
  match p with
  | [] => true
  | b0 :: p1 =>
      if b0 <? 128 then utf8_Valid_values p1
      else
        match utf8_first b0 with
        | None => false
        | Some (size, lo, hi) =>
            match p1 with
            | [] => false
            | c1 :: p2 =>
                match size with
                | 2%nat => in_range lo hi c1 && utf8_Valid_values p2
                | 3%nat =>
                    match p2 with
                    | [] => false
                    | c2 :: p3 =>
                        in_range lo hi c1 && in_range 128 191 c2
                        && utf8_Valid_values p3
                    end
                | _ =>
                    match p2 with
                    | c2 :: c3 :: p4 =>
                        in_range lo hi c1 && in_range 128 191 c2
                        && in_range 128 191 c3 && utf8_Valid_values p4
                    | _ => false
                    end
                end
            end
        end
  end.

Definition utf8_Valid (p : list ascii) : bool :=
  utf8_Valid_values (map byte_val p).

(** ** Package [operators]: the [rx] operator *)

Module operators.

(** A compiled pattern of [regexp] or of [binaryregexp], by the two
    methods the operator calls.  [FindStringSubmatch] returns the empty
    slice when there is no match, and otherwise the whole match followed by
    one text per capturing group. *)
Record Regexp := {
  FindStringSubmatch : string -> list string;
  MatchString : string -> bool;
}.

(** The two pattern compilers are libraries outside the repository, and
    [shouldNotUseMultilineRegexesOperatorByDefault] is a build-tag constant
    declared outside the sources: the three are parameters. *)
Class Engines := {
  shouldNotUseMultilineRegexesOperatorByDefault : bool;
  regexp_Compile : string -> result Regexp string;
  binaryregexp_Compile : string -> result Regexp string;
}.

(** Modelled from the spec: [memoize.Do] (package [memoize] is not among
    the sources) caches compiled patterns by their source text; with a
    compiler that is a function of that text it returns what [fn]
    returns. *)
Definition memoize_Do {A E} (key : string) (fn : unit -> result A E)
    : result A E := fn tt.

Record rx := { rx_re : Regexp }.

Record binaryRX := { binaryRX_re : Regexp }.

(** A [plugintypes.Operator] built by [newRX]. *)
Inductive Operator :=
| Operator_rx (o : rx)
| Operator_binaryRX (o : binaryRX).

(** The compiled pattern an operator holds. *)
Definition Operator_re (op : Operator) : Regexp :=
  match op with
  | Operator_rx o => rx_re o
  | Operator_binaryRX o => binaryRX_re o
  end.

(** The loop of [matchesArbitraryBytes] from position [i] on, with [expr]
    standing for [expr[i:]]: the bytes appended to [decoded]. *)
Fixpoint decodeByteEscapes (expr : string) : list ascii :=
  match expr with
  | EmptyString => []
  | String c rest =>
      if negb (byte_eqb c "\") then c :: decodeByteEscapes rest
      else
        match rest with
        | String x (String h1 (String h2 rest')) =>
            if negb (byte_eqb x "x") then c :: decodeByteEscapes rest
            else
              match strconv_UnquoteChar_x h1 h2 with
              | None => c :: decodeByteEscapes rest
              | Some v => byte_of_Z v :: decodeByteEscapes rest'
              end
        | _ => c :: list_ascii_of_string rest
        end
  end.

Definition matchesArbitraryBytes (expr : string) : bool :=
  negb (utf8_Valid (decodeByteEscapes expr)).

Section with_engines.
Context `{Variables} `{Engines}.

Definition newBinaryRX (options : plugintypes.OperatorOptions)
    : result Operator string :=
  let data := plugintypes.Arguments_ options in
  match memoize_Do data (fun _ => binaryregexp_Compile data) with
  | Err err => Err err
  | Ok re => Ok (Operator_binaryRX {| binaryRX_re := re |})
  end.

(** The pattern text [newRX] builds with [fmt.Sprintf]. *)
Definition rxData (options : plugintypes.OperatorOptions) : string :=
  if shouldNotUseMultilineRegexesOperatorByDefault
  then "(?s)" ++ plugintypes.Arguments_ options
  else "(?sm)" ++ plugintypes.Arguments_ options.

Definition newRX (options : plugintypes.OperatorOptions)
    : result Operator string :=
  let data := rxData options in
  if matchesArbitraryBytes data then newBinaryRX options
  else
    match memoize_Do data (fun _ => regexp_Compile data) with
    | Err err => Err err
    | Ok re => Ok (Operator_rx {| rx_re := re |})
    end.

(** [for i, c := range match { if i == 9 { return true }; tx.CaptureField(i, c) }]
    from index [i] on. *)
Fixpoint captureLoop (i : Z) (match_ : list string)
    (tx : plugintypes.TransactionState) : plugintypes.TransactionState :=
  match match_ with
  | [] => tx
  | c :: rest =>
      if i =? 9 then tx
      else captureLoop (i + 1) rest (plugintypes.CaptureField i c tx)
  end.

Definition rx_Evaluate (o : rx) (tx : plugintypes.TransactionState)
    (value : string) : bool * plugintypes.TransactionState :=
  if plugintypes.Capturing tx then
    let match_ := FindStringSubmatch (rx_re o) value in
    match match_ with
    | [] => (false, tx)
    | _ => (true, captureLoop 0 match_ tx)
    end
  else (MatchString (rx_re o) value, tx).

Definition binaryRX_Evaluate (o : binaryRX)
    (tx : plugintypes.TransactionState) (value : string)
    : bool * plugintypes.TransactionState :=
  if plugintypes.Capturing tx then
    let match_ := FindStringSubmatch (binaryRX_re o) value in
    match match_ with
    | [] => (false, tx)
    | _ => (true, captureLoop 0 match_ tx)
    end
  else (MatchString (binaryRX_re o) value, tx).

(** [Operator.Evaluate], dispatched on the dynamic type. *)
Definition Evaluate (op : Operator) (tx : plugintypes.TransactionState)
    (value : string) : bool * plugintypes.TransactionState :=
  match op with
  | Operator_rx o => rx_Evaluate o tx value
  | Operator_binaryRX o => binaryRX_Evaluate o tx value
  end.
End with_engines.
End operators.

(** ** Package [actions]: the [deny] action *)

Module actions.
Section with_variables.
Context `{Variables}.

Definition noID : Z := 0.
Definition noStatus : Z := 0.

(** [http.StatusForbidden] *)
Definition http_StatusForbidden : Z := 403.

Definition denyFn_Evaluate (r : plugintypes.RuleMetadata)
    (tx : plugintypes.TransactionState) : plugintypes.TransactionState :=
  let rid := plugintypes.ID r in
  let rid := if rid =? noID then plugintypes.ParentID r else rid in
  let status := plugintypes.Status r in
  let status := if status =? noStatus then http_StatusForbidden else status in
  plugintypes.Interrupt
    {| types.Status := status; types.RuleID := rid; types.Action := "deny" |}
    tx.
End with_variables.
End actions.

(** ** Package [collections]: named collections and their names view *)

Module collections.
Section with_variables.
Context `{Variables}.

(** An entry of a [Map]: a value tagged with its original-case key. *)
Record keyValue := {
  key : string;
  value : string;
}.

(** Modelled from the spec: the [Map] collection, whose declaration is not
    among the sources: a map from the (case-folded, unless the map is case
    sensitive) key to the ordered entries stored under it, each tagged with
    its original-case key. *)
Record Map := {
  isCaseSensitive : bool;
  data : gmap string (list keyValue);
  Map_variable : RuleVariable;
}.

(** The key under which [Map] files an entry. *)
Definition Map_foldKey (c : Map) (key : string) : string :=
  if isCaseSensitive c then key else strings_ToLower key.

(** Modelled from the spec: [Map.Get], the values stored under a key in
    insertion order. *)
Definition Map_Get (c : Map) (key : string) : list string :=
  map value (default [] (data c !! Map_foldKey c key)).

(** Modelled from the spec: [Map.Add] appends a value under a key. *)
Definition Map_Add (c : Map) (key : string) (value : string) : Map :=
  let aVal := {| key := key; value := value |} in
  let k := Map_foldKey c key in
  {| isCaseSensitive := isCaseSensitive c;
     data := <[k := (default [] (data c !! k) ++ [aVal])%list]> (data c);
     Map_variable := Map_variable c |}.

(** [NamedCollection] embeds a [*Map]. *)
Record NamedCollection := {
  Map_ : Map;
}.

Definition NamedCollection_Add (c : NamedCollection) (key : string)
    (value : string) : NamedCollection :=
  {| Map_ := Map_Add (Map_ c) key value |}.

Record NamedCollectionNames := {
  variable : RuleVariable;
  collection : NamedCollection;
}.

Definition Names (c : NamedCollection) (rv : RuleVariable)
    : NamedCollectionNames :=
  {| variable := rv; collection := c |}.

(** The inner loop shared by the three find operations: one record per
    entry, with the entry's key as key and as value. *)
Definition namesOf (c : NamedCollectionNames) (data : list keyValue)
    : list types.MatchData :=
  map (fun d => {| types.Variable_ := variable c;
                   types.Key_ := key d;
                   types.Value_ := key d |}) data.

(** [range c.collection.Map.data]: the pairs of the map in the order of
    the iteration.  Go leaves that order open and draws it anew for every
    loop; [map_to_list] fixes one, and the statements about the find
    operations speak of membership, of counts and of the entries of one
    key, which no order changes.  Where the order shows in the result
    ([String_]) it is an argument. *)
Definition rangeData (c : NamedCollectionNames)
    : list (string * list keyValue) :=
  map_to_list (data (Map_ (collection c))).

Definition FindRegex (c : NamedCollectionNames) (key : operators.Regexp)
    : list types.MatchData :=
  flat_map (fun kd : string * list keyValue =>
              if negb (operators.MatchString key (fst kd)) then []
              else namesOf c (snd kd))
           (rangeData c).

Definition FindString (c : NamedCollectionNames) (key : string)
    : list types.MatchData :=
  flat_map (fun kd : string * list keyValue =>
              if negb (String.eqb (fst kd) key) then []
              else namesOf c (snd kd))
           (rangeData c).

Definition Get (c : NamedCollectionNames) (key : string) : list string :=
  Map_Get (Map_ (collection c)) key.

Definition FindAll (c : NamedCollectionNames) : list types.MatchData :=
  flat_map (fun kd : string * list keyValue => namesOf c (snd kd))
           (rangeData c).

(** The names view as the [collection.Keyed] that [Names] returns. *)
Definition asKeyed (c : NamedCollectionNames) : collection.Keyed :=
  {| collection.Keyed_Get := Get c;
     collection.Keyed_FindAll := FindAll c |}.

(** A [Map] as a [collection.Keyed]. *)
Definition Map_asKeyed (c : Map) : collection.Keyed :=
  {| collection.Keyed_Get := Map_Get c;
     collection.Keyed_FindAll :=
       flat_map (fun kd : string * list keyValue =>
                   map (fun d => {| types.Variable_ := Map_variable c;
                                    types.Key_ := key d;
                                    types.Value_ := value d |}) (snd kd))
                (map_to_list (data c)) |}.

(** [NewMap(rv)]: an empty case-insensitive map. *)
Definition NewMap (rv : RuleVariable) : Map :=
  {| isCaseSensitive := false; data := ∅; Map_variable := rv |}.

Definition NewNamedCollection (rv : RuleVariable) : NamedCollection :=
  {| Map_ := NewMap rv |}.

(** [(c *NamedCollection) Len()]: [len(c.Map.data)], the number of keys. *)
Definition Len (c : NamedCollection) : Z :=
  Z.of_nat (size (data (Map_ c))).

(** [(c *NamedCollection) Data()]: the loop over [c.data] fills [result]
    key by key with the values of the entries. *)
Definition Data (c : NamedCollection) : gmap string (list string) :=
  foldl (fun (result : gmap string (list string))
             (kv : string * list keyValue) =>
           <[fst kv := map value (snd kv)]> result)
        ∅ (map_to_list (data (Map_ c))).

(** [(c *NamedCollectionNames) Name()] *)
Definition Name (c : NamedCollectionNames) : string :=
  RuleVariable_Name (variable c).

(** One round of the inner loop of [(c *NamedCollectionNames) String()]:
    the builder [res] and the flag [firstOccurrence]. *)
Definition writeKey (st : string * bool) (d : keyValue) : string * bool :=
  let res := fst st in
  let firstOccurrence := snd st in
  ((if firstOccurrence then res else res ++ ",") ++ key d, false).

(** [(c *NamedCollectionNames) String()], with [order] the order in which
    this run of the range loop visits the pairs of the map. *)
Definition String_ (c : NamedCollectionNames)
    (order : list (string * list keyValue)) : string :=
  let res := (RuleVariable_Name (variable c) ++ ": ") in
  fst (foldl (fun st (kd : string * list keyValue) =>
                foldl writeKey st (snd kd))
             (res, true) order).
End with_variables.
End collections.

(** ** Concrete instances, used to run the definitions on examples *)

Module examples.

(** A small table of variables. *)
Inductive exampleVariable := vUnknown | vTX | vARGS | vARGS_NAMES | vREMOTE_ADDR.

#[export] Instance exampleVariable_eq_dec : EqDecision exampleVariable.
Proof. solve_decision. Defined.

(** Parsing is case insensitive, as in [variables.Parse]. *)
Definition exampleParse (v : string) : option exampleVariable :=
  let u := strings_ToLower v in
  if String.eqb u "tx" then Some vTX
  else if String.eqb u "args" then Some vARGS
  else if String.eqb u "args_names" then Some vARGS_NAMES
  else if String.eqb u "remote_addr" then Some vREMOTE_ADDR
  else None.

Definition exampleName (v : exampleVariable) : string :=
  match v with
  | vUnknown => "UNKNOWN"
  | vTX => "TX"
  | vARGS => "ARGS"
  | vARGS_NAMES => "ARGS_NAMES"
  | vREMOTE_ADDR => "REMOTE_ADDR"
  end.

#[export] Instance exampleVariables : Variables := {|
  RuleVariable := exampleVariable;
  Unknown := vUnknown;
  variables_Parse := exampleParse;
  RuleVariable_Name := exampleName;
|}.

(** [strings.HasPrefix] *)
Fixpoint strings_HasPrefix (s prefix : string) : bool :=
  match prefix, s with
  | EmptyString, _ => true
  | String p prefix', String c s' =>
      byte_eqb p c && strings_HasPrefix s' prefix'
  | String _ _, EmptyString => false
  end.

(** [strings.Contains] *)
Fixpoint strings_Contains (s substr : string) : bool :=
  strings_HasPrefix s substr
  || match s with
     | EmptyString => false
     | String _ rest => strings_Contains rest substr
     end.

(** A pattern made of literal bytes and byte escapes only. *)
Definition literalRegexp (p : string) : operators.Regexp :=
  let bytes := string_of_list_ascii (operators.decodeByteEscapes p) in
  {| operators.FindStringSubmatch :=
       fun v => if strings_Contains v bytes then [bytes] else [];
     operators.MatchString := fun v => strings_Contains v bytes |}.

(** The text compiler of the examples reads the flag group [newRX] puts in
    front and then a literal pattern; the binary compiler reads a literal
    pattern. *)
Definition exampleCompile (data : string) : result operators.Regexp string :=
  if strings_HasPrefix data "(?sm)"
  then Ok (literalRegexp (String.substring 5 (String.length data - 5) data))
  else if strings_HasPrefix data "(?s)"
  then Ok (literalRegexp (String.substring 4 (String.length data - 4) data))
  else Err "missing flags".

#[export] Instance exampleEngines : operators.Engines := {|
  operators.shouldNotUseMultilineRegexesOperatorByDefault := false;
  operators.regexp_Compile := exampleCompile;
  operators.binaryregexp_Compile := fun data => Ok (literalRegexp data);
|}.

(** The compiled form of the pattern [(a)(b)(c)(d)(e)(f)(g)(h)(i)(j)(k)]:
    eleven capturing groups, twelve texts per match. *)
Definition elevenGroups : operators.Regexp :=
  {| operators.FindStringSubmatch :=
       fun v =>
         if strings_Contains v "abcdefghijk"
         then ["abcdefghijk"; "a"; "b"; "c"; "d"; "e"; "f"; "g"; "h"; "i";
               "j"; "k"]
         else [];
     operators.MatchString := fun v => strings_Contains v "abcdefghijk" |}.

(** The [TX] collection of the example transactions. *)
Definition txCollection (entries : list (string * string))
    : collections.Map :=
  foldl (fun c kv => collections.Map_Add c (fst kv) (snd kv))
        (collections.NewMap vTX) entries.

(** A transaction whose [TX] collection holds [entries], whose other
    collections are empty, and that has captured and logged nothing. *)
Definition exampleTx (capturing : bool) (entries : list (string * string))
    : plugintypes.TransactionState :=
  {| plugintypes.tx_Capturing := capturing;
     plugintypes.tx_captures := ∅;
     plugintypes.tx_captureCalls := [];
     plugintypes.tx_interruption := None;
     plugintypes.tx_Collection :=
       fun v =>
         match v with
         | vTX => collection.IsKeyed
                    (collections.Map_asKeyed (txCollection entries))
         | vREMOTE_ADDR =>
             collection.IsSingle
               {| collection.Single_Get := "127.0.0.1";
                  collection.Single_FindAll := [] |}
         | _ => collection.IsKeyed
                  (collections.Map_asKeyed (collections.NewMap v))
         end;
     plugintypes.tx_debugLog := [] |}.







End examples.

(** ** Predicates used in the statements *)

(** [body] holds no closing brace and no reference opener. *)
Fixpoint noBraceNoOpener (body : string) : bool :=
  match body with
  | EmptyString => true
  | String c rest =>
      negb (byte_eqb c "}")
      && negb (byte_eqb c "%" && match rest with
                                 | String c' _ => byte_eqb c' "{"
                                 | EmptyString => false
                                 end)
      && noBraceNoOpener rest
  end.

(** [s] starts with an opening brace. *)
Definition startsWithBrace (s : string) : bool :=
  match s with
  | String c _ => byte_eqb c "{"
  | EmptyString => false
  end.

(** [s] holds no reference opener. *)
Fixpoint noOpener (s : string) : bool :=
  match s with
  | EmptyString => true
  | String c rest =>
      negb (byte_eqb c "%" && startsWithBrace rest) && noOpener rest
  end.

(** Every byte of [s] is below 128. *)
Fixpoint isASCII (s : string) : bool :=
  match s with
  | EmptyString => true
  | String c rest => (byte_val c <? 128) && isASCII rest
  end.

(** [s] holds no backslash. *)
Fixpoint noBackslash (s : string) : bool :=
  match s with
  | EmptyString => true
  | String c rest => negb (byte_eqb c "\") && noBackslash rest
  end.

(** [s] starts with the letter [x]. *)
Definition startsWithX (s : string) : bool :=
  match s with
  | String c _ => byte_eqb c "x"
  | EmptyString => false
  end.

(** No backslash of [s] is followed by the letter [x]. *)
Fixpoint noHexEscape (s : string) : bool :=
  match s with
  | EmptyString => true
  | String c rest =>
      negb (byte_eqb c "\" && startsWithX rest) && noHexEscape rest
  end.

(** Every byte of [body] is allowed inside a reference. *)
Fixpoint allValidMacroChars (body : string) : bool :=
  match body with
  | EmptyString => true
  | String c rest => macro.isValidMacroChar c && allValidMacroChars rest
  end.

(** The last byte of [body], or [prev] when [body] is empty. *)
Fixpoint lastByte (prev : ascii) (body : string) : ascii :=
  match body with
  | EmptyString => prev
  | String c rest => lastByte c rest
  end.

(** * Properties *)

(** ** Macros *)

Section macro_properties.
Context `{Variables}.

(** C9: [NewMacro] applied to the empty string returns the empty-data error
    and no macro. *)
Theorem NewMacro_empty_data :
  macro.NewMacro EmptyString = Err macro.errEmptyData.
Proof. reflexivity. Qed.

(** [compile] itself also rejects the empty input. *)
Lemma compile_empty_input (m : macro.macro) :
  macro.compile m EmptyString = Err macro.errEmptyMacro.
Proof. reflexivity. Qed.

(** A literal token expands to its text and leaves the transaction alone. *)
Lemma expandToken_literal tx s :
  macro.expandToken tx (macro.literalToken s) = (s, tx).
Proof.
  unfold macro.expandToken, macro.literalToken; simpl.
  destruct (decide (Unknown = Unknown)); [reflexivity | congruence].
Qed.

(** A reference to a keyed collection that holds the key expands to the
    first value stored under it. *)
Lemma expandToken_keyed_present tx token col c0 cs :
  macro.variable token <> Unknown ->
  plugintypes.Collection tx (macro.variable token) = collection.IsKeyed col ->
  collection.Keyed_Get col (macro.key token) = c0 :: cs ->
  macro.expandToken tx token = (c0, tx).
Proof.
  intros Hv Hcol Hget. unfold macro.expandToken.
  destruct (decide (macro.variable token = Unknown)); [contradiction |].
  rewrite Hcol, Hget. reflexivity.
Qed.

(** A reference to a keyed collection without the key expands to the text
    of the token and logs one warning. *)
Lemma expandToken_keyed_absent tx token col :
  macro.variable token <> Unknown ->
  plugintypes.Collection tx (macro.variable token) = collection.IsKeyed col ->
  collection.Keyed_Get col (macro.key token) = [] ->
  macro.expandToken tx token =
    (macro.text token,
     plugintypes.DebugLogger_Warn
       [("variable", RuleVariable_Name (macro.variable token));
        ("key", macro.key token)]
       "key not found in collection, returning the original text" tx).
Proof.
  intros Hv Hcol Hget. unfold macro.expandToken.
  destruct (decide (macro.variable token = Unknown)); [contradiction |].
  rewrite Hcol, Hget. reflexivity.
Qed.

(** Inside a reference, a text that is not empty and holds neither a
    closing brace nor a further opener never compiles. *)
Lemma compile_loop_unterminated body :
  body <> EmptyString -> noBraceNoOpener body = true ->
  forall prev tokens cur,
    is_Ok (macro.compile_loop body prev tokens cur true) = false.
Proof.
  induction body as [| c rest IH]; intros Hne Hok prev tokens cur;
    [congruence |].
  simpl in Hok.
  apply andb_prop in Hok as [Hok Hrest].
  apply andb_prop in Hok as [Hbrace Hopen].
  apply negb_true_iff in Hbrace. apply negb_true_iff in Hopen.
  cbn [macro.compile_loop]. rewrite Hbrace.
  destruct rest as [| c' rest'].
  - destruct (macro.isValidMacroChar c); reflexivity.
  - rewrite Hopen.
    destruct (macro.isValidMacroChar c); [| reflexivity].
    cbn [negb]. apply IH; [congruence | exact Hrest].
Qed.

(** An opener followed by such a text makes the whole loop fail, whatever
    precedes it and in whatever state the loop is entered. *)
Lemma compile_loop_opener_unterminated body :
  body <> EmptyString -> noBraceNoOpener body = true ->
  forall n pre, (String.length pre <= n)%nat ->
  forall prev tokens cur isMacro,
    is_Ok (macro.compile_loop (pre ++ "%{" ++ body) prev tokens cur isMacro)
    = false.
Proof.
  intros Hne Hok.
  induction n as [n IH] using lt_wf_ind.
  intros pre Hlen prev tokens cur isMacro.
  destruct pre as [| c pre'].
  - change (EmptyString ++ "%{" ++ body) with (String "%" (String "{" body)).
    cbn [macro.compile_loop]. cbn.
    apply compile_loop_unterminated; assumption.
  - change (String c pre' ++ "%{" ++ body)
      with (String c (pre' ++ "%{" ++ body)).
    cbn [macro.compile_loop].
    assert (Hrest : forall prev' tokens' cur' isMacro',
              is_Ok (macro.compile_loop (pre' ++ "%{" ++ body) prev' tokens'
                       cur' isMacro') = false).
    { intros. apply (IH (String.length pre')); [simpl in Hlen; lia | lia]. }
    destruct (pre' ++ "%{" ++ body) as [| c' rest'] eqn:Erest.
    { destruct pre'; discriminate. }
    assert (Hstep :
      is_Ok (if isMacro
             then if byte_eqb c "}"
                  then if byte_eqb prev "." then Err macro.errEmptyVariableName
                       else
                         let '(varName, k, _) := strings_Cut_dot cur in
                         match variables_Parse varName with
                         | None => Err (macro.errUnknownVariable varName)
                         | Some v =>
                             macro.compile_loop (String c' rest') c
                               (tokens ++ [{| macro.text := cur;
                                              macro.variable := v;
                                              macro.key := strings_ToLower k |}])
                               EmptyString false
                         end
                  else if negb (macro.isValidMacroChar c)
                       then Err (macro.errMalformedVariable ("%{" ++ cur))
                       else macro.compile_loop (String c' rest') c tokens
                              (cur ++ String c EmptyString) true
             else macro.compile_loop (String c' rest') c tokens
                    (cur ++ String c EmptyString) false) = false).
    { destruct isMacro; [| apply Hrest].
      destruct (byte_eqb c "}").
      - destruct (byte_eqb prev "."); [reflexivity |].
        destruct (strings_Cut_dot cur) as [[varName k] found].
        destruct (variables_Parse varName); [apply Hrest | reflexivity].
      - destruct (negb (macro.isValidMacroChar c)); [reflexivity | apply Hrest]. }
    destruct (byte_eqb c "%" && byte_eqb c' "{") eqn:Eopen; [| exact Hstep].
    apply andb_prop in Eopen as [_ Ec'].
    destruct pre' as [| p pre''].
    + simpl in Erest. injection Erest as <- _. discriminate.
    + simpl in Erest. injection Erest as _ <-.
      apply (IH (String.length pre'')); simpl in Hlen; lia.
Qed.

(** A template whose last opener is followed by a text that is not empty
    and holds no closing brace is rejected. *)
Lemma NewMacro_unterminated pre body :
  body <> EmptyString -> noBraceNoOpener body = true ->
  is_Ok (macro.NewMacro (pre ++ "%{" ++ body)) = false.
Proof.
  intros Hne Hok.
  pose proof (compile_loop_opener_unterminated body Hne Hok
                (String.length pre) pre (le_n _) "000"%char [] EmptyString
                false) as Hloop.
  unfold macro.NewMacro, macro.compile.
  destruct (pre ++ "%{" ++ body) eqn:E.
  - destruct pre; discriminate.
  - simpl macro.tokens.
    destruct (macro.compile_loop _ _ _ _ _); [discriminate | reflexivity].
Qed.

(** C5: the template made of a lone opener has no closing brace, and yet
    [NewMacro] accepts it and returns a macro without tokens. *)
Theorem NewMacro_lone_opener_accepted :
  macro.NewMacro "%{" = Ok {| macro.original := "%{"; macro.tokens := [] |}.
Proof. reflexivity. Qed.

(** The macro compiled from a lone opener expands to the empty string. *)
Lemma Expand_lone_opener tx :
  macro.Expand {| macro.original := "%{"; macro.tokens := [] |} tx
  = (EmptyString, tx).
Proof. reflexivity. Qed.
End macro_properties.

(** ** The [rx] operator: capture groups *)

Section capture_properties.
Context `{Variables}.

(** The [CaptureField] calls of the loop entered at index [i]: one call per
    text, in order, up to index 8. *)
Lemma captureLoop_calls match_ : forall i tx,
  0 <= i <= 9 ->
  plugintypes.tx_captureCalls (operators.captureLoop i match_ tx)
  = (plugintypes.tx_captureCalls tx
     ++ imap (fun j c => (i + Z.of_nat j, c))
          (take (Z.to_nat (9 - i)) match_))%list.
Proof.
  induction match_ as [| c rest IH]; intros i tx Hi; simpl.
  - rewrite take_nil. simpl. symmetry. apply app_nil_r.
  - destruct (Z.eqb_spec i 9) as [-> | Hne].
    + simpl. symmetry. apply app_nil_r.
    + rewrite IH by lia. simpl.
      replace (Z.to_nat (9 - i)) with (S (Z.to_nat (9 - (i + 1)))) by lia.
      simpl. rewrite <- app_assoc. simpl.
      rewrite Z.add_0_r. do 2 f_equal.
      apply imap_ext. intros j x _. simpl. f_equal. lia.
Qed.

(** The capture slots after the loop entered at index [i]. *)
Lemma captureLoop_captures match_ : forall i tx j,
  0 <= i <= 9 ->
  plugintypes.tx_captures (operators.captureLoop i match_ tx) !! j
  = if decide (i <= j < 9 /\ j - i < Z.of_nat (length match_))
    then match_ !! Z.to_nat (j - i)
    else plugintypes.tx_captures tx !! j.
Proof.
  induction match_ as [| c rest IH]; intros i tx j Hi; simpl.
  - case_decide; [lia | reflexivity].
  - destruct (Z.eqb_spec i 9) as [-> | Hne].
    + case_decide; [lia | reflexivity].
    + rewrite IH by lia. simpl.
      destruct (decide (j = i)) as [-> | Hji].
      * rewrite lookup_insert_eq.
        repeat case_decide; try lia.
        replace (Z.to_nat (i - i)) with 0%nat by lia. reflexivity.
      * rewrite lookup_insert_ne by congruence.
        repeat case_decide; try lia; try reflexivity.
        replace (Z.to_nat (j - i)) with (S (Z.to_nat (j - (i + 1)))) by lia.
        reflexivity.
Qed.

(** What [Evaluate] does in capturing mode, for both variants. *)
Lemma Evaluate_capturing op tx value :
  plugintypes.Capturing tx = true ->
  operators.Evaluate op tx value
  = match operators.FindStringSubmatch (operators.Operator_re op) value with
    | [] => (false, tx)
    | c :: rest => (true, operators.captureLoop 0 (c :: rest) tx)
    end.
Proof.
  intros Hcap.
  destruct op as [o | o]; cbn [operators.Evaluate operators.Operator_re];
    unfold operators.rx_Evaluate, operators.binaryRX_Evaluate;
    rewrite Hcap;
    destruct (operators.FindStringSubmatch _ value); reflexivity.
Qed.

(** C2: in capturing mode, a match makes [Evaluate] (text or binary
    variant) return true and call [CaptureField] once for each of the first
    nine texts of the match, index [i] with text [i], and never with an
    index of 9 or more; slots 0 to 8 hold the texts and every slot from 9
    on keeps its content, however many groups the match has. *)
Theorem Evaluate_captures_first_nine op tx value :
  plugintypes.Capturing tx = true ->
  (0 < length (operators.FindStringSubmatch (operators.Operator_re op) value))%nat ->
  fst (operators.Evaluate op tx value) = true
  /\ plugintypes.tx_captureCalls (snd (operators.Evaluate op tx value))
     = (plugintypes.tx_captureCalls tx
        ++ imap (fun i c => (Z.of_nat i, c))
             (take 9 (operators.FindStringSubmatch
                        (operators.Operator_re op) value)))%list
  /\ (forall (i : nat) c,
        (i < 9)%nat ->
        operators.FindStringSubmatch (operators.Operator_re op) value !! i
          = Some c ->
        plugintypes.tx_captures (snd (operators.Evaluate op tx value))
          !! Z.of_nat i = Some c)
  /\ (forall j : Z,
        9 <= j ->
        plugintypes.tx_captures (snd (operators.Evaluate op tx value)) !! j
        = plugintypes.tx_captures tx !! j).
Proof.
  intros Hcap Hlen. rewrite (Evaluate_capturing op tx value Hcap).
  destruct (operators.FindStringSubmatch (operators.Operator_re op) value)
    as [| c0 rest] eqn:Ematch; [simpl in Hlen; lia |].
  cbn [fst snd]. split; [reflexivity |]. split.
  - rewrite captureLoop_calls by lia. reflexivity.
  - split.
    + intros i c Hi Hlook. rewrite captureLoop_captures by lia.
      apply lookup_lt_Some in Hlook as Hlt.
      case_decide; [| lia].
      replace (Z.to_nat (Z.of_nat i - 0)) with i by lia. exact Hlook.
    + intros j Hj. rewrite captureLoop_captures by lia.
      case_decide; [lia | reflexivity].
Qed.

(** No call of the capture loop carries an index outside 0..8. *)
Lemma Evaluate_capture_indices op tx value j c :
  plugintypes.Capturing tx = true ->
  In (j, c) (plugintypes.tx_captureCalls (snd (operators.Evaluate op tx value))) ->
  In (j, c) (plugintypes.tx_captureCalls tx) \/ 0 <= j <= 8.
Proof.
  intros Hcap Hin. rewrite (Evaluate_capturing op tx value Hcap) in Hin.
  destruct (operators.FindStringSubmatch (operators.Operator_re op) value)
    as [| c0 rest]; [left; exact Hin |].
  cbn [snd] in Hin. rewrite captureLoop_calls in Hin by lia.
  apply in_app_or in Hin as [Hold | Hnew]; [left; exact Hold | right].
  apply list_elem_of_In, elem_of_lookup_imap in Hnew as (i & x & Heq & Hlook).
  injection Heq as -> ->.
  apply lookup_lt_Some in Hlook. rewrite length_take in Hlook. lia.
Qed.

(** C8: in capturing mode, a value on which the pattern finds no match
    makes [Evaluate] (text or binary variant) return false and leaves the
    transaction as it was: no [CaptureField] call is made. *)
Theorem Evaluate_no_match_no_capture op tx value :
  plugintypes.Capturing tx = true ->
  operators.FindStringSubmatch (operators.Operator_re op) value = [] ->
  operators.Evaluate op tx value = (false, tx).
Proof.
  intros Hcap Hnone. rewrite (Evaluate_capturing op tx value Hcap), Hnone.
  reflexivity.
Qed.

(** Outside capturing mode [Evaluate] never touches the transaction. *)
Lemma Evaluate_not_capturing op tx value :
  plugintypes.Capturing tx = false ->
  operators.Evaluate op tx value
  = (operators.MatchString (operators.Operator_re op) value, tx).
Proof.
  intros Hcap.
  destruct op as [o | o]; simpl;
    unfold operators.rx_Evaluate, operators.binaryRX_Evaluate;
    rewrite Hcap; reflexivity.
Qed.
End capture_properties.

(** ** The [rx] operator: choice of the engine *)

Section engine_properties.
Context `{Variables} `{operators.Engines}.

(** [newBinaryRX] compiles the argument as it is, with the binary-safe
    compiler. *)
Lemma newBinaryRX_compiles_argument options :
  operators.newBinaryRX options
  = match operators.binaryregexp_Compile (plugintypes.Arguments_ options) with
    | Ok re => Ok (operators.Operator_binaryRX {| operators.binaryRX_re := re |})
    | Err err => Err err
    end.
Proof.
  unfold operators.newBinaryRX, operators.memoize_Do.
  destruct (operators.binaryregexp_Compile _); reflexivity.
Qed.

(** The flag group [newRX] puts in front of the argument. *)
Lemma rxData_prefix options :
  operators.rxData options
  = (if operators.shouldNotUseMultilineRegexesOperatorByDefault
     then "(?s)" else "(?sm)") ++ plugintypes.Arguments_ options.
Proof.
  unfold operators.rxData.
  destruct operators.shouldNotUseMultilineRegexesOperatorByDefault; reflexivity.
Qed.

(** On the text path the pattern that is compiled is the argument behind
    the flag group. *)
Lemma newRX_text_path options :
  operators.matchesArbitraryBytes (operators.rxData options) = false ->
  operators.newRX options
  = match operators.regexp_Compile
            ((if operators.shouldNotUseMultilineRegexesOperatorByDefault
              then "(?s)" else "(?sm)") ++ plugintypes.Arguments_ options) with
    | Ok re => Ok (operators.Operator_rx {| operators.rx_re := re |})
    | Err err => Err err
    end.
Proof.
  intros Htext. unfold operators.newRX, operators.memoize_Do.
  rewrite Htext, rxData_prefix.
  destruct (operators.regexp_Compile _); reflexivity.
Qed.


(** The flag group holds no escape and no byte beyond ASCII: the test on
    the pattern text is the test on the argument. *)
Lemma matchesArbitraryBytes_rxData options :
  operators.matchesArbitraryBytes (operators.rxData options)
  = operators.matchesArbitraryBytes (plugintypes.Arguments_ options).
Proof.
  unfold operators.rxData.
  destruct operators.shouldNotUseMultilineRegexesOperatorByDefault;
    reflexivity.
Qed.

(** [utf8.Valid] on a few byte sequences: a two-byte character, an
    overlong form, a surrogate, a value beyond the last code point, a
    truncated sequence. *)
Example utf8_Valid_samples :
  utf8_Valid_values [195; 169] = true
  /\ utf8_Valid_values [192; 128] = false
  /\ utf8_Valid_values [237; 160; 128] = false
  /\ utf8_Valid_values [244; 144; 128; 128] = false
  /\ utf8_Valid_values [240; 159; 152; 128] = true
  /\ utf8_Valid_values [226; 130] = false
  /\ utf8_Valid_values [255] = false.
Proof. repeat split. Qed.

(** The argument made of the escape of byte [0xFF] takes the binary path
    under either flag group. *)
Lemma matchesArbitraryBytes_xFF :
  operators.matchesArbitraryBytes "(?sm)\xFF" = true
  /\ operators.matchesArbitraryBytes "(?s)\xFF" = true.
Proof. split; reflexivity. Qed.

(** C6: for the argument [\xFF.] the pattern handed to the binary-safe
    compiler is the bare argument: no flag group is put in front of it,
    whichever mode is configured. *)
Theorem newRX_binary_path_unwrapped :
  operators.newRX {| plugintypes.Arguments_ := "\xFF." |}
  = match operators.binaryregexp_Compile "\xFF." with
    | Ok re => Ok (operators.Operator_binaryRX {| operators.binaryRX_re := re |})
    | Err err => Err err
    end.
Proof.
  assert (Hbin : operators.matchesArbitraryBytes
                   (operators.rxData {| plugintypes.Arguments_ := "\xFF." |})
                 = true).
  { rewrite rxData_prefix.
    destruct operators.shouldNotUseMultilineRegexesOperatorByDefault;
      reflexivity. }
  unfold operators.newRX. rewrite Hbin.
  apply newBinaryRX_compiles_argument.
Qed.
End engine_properties.

(** ** The [deny] action *)

Section deny_properties.
Context `{Variables}.

(** C3: [deny] sets an interruption whose rule ID is the rule's own ID when
    that is not 0 and the parent's ID otherwise, whose status is the rule's
    status when that is not 0 and 403 otherwise, and whose action is
    [deny]; the rest of the transaction is left as it was. *)
Theorem denyFn_Evaluate_interruption r tx :
  exists i,
    plugintypes.tx_interruption (actions.denyFn_Evaluate r tx) = Some i
    /\ (plugintypes.ID r <> 0 -> types.RuleID i = plugintypes.ID r)
    /\ (plugintypes.ID r = 0 -> types.RuleID i = plugintypes.ParentID r)
    /\ (plugintypes.Status r <> 0 -> types.Status i = plugintypes.Status r)
    /\ (plugintypes.Status r = 0 -> types.Status i = 403)
    /\ types.Action i = "deny"
    /\ plugintypes.tx_Capturing (actions.denyFn_Evaluate r tx)
       = plugintypes.tx_Capturing tx
    /\ plugintypes.tx_captures (actions.denyFn_Evaluate r tx)
       = plugintypes.tx_captures tx
    /\ plugintypes.tx_captureCalls (actions.denyFn_Evaluate r tx)
       = plugintypes.tx_captureCalls tx
    /\ plugintypes.tx_Collection (actions.denyFn_Evaluate r tx)
       = plugintypes.tx_Collection tx
    /\ plugintypes.tx_debugLog (actions.denyFn_Evaluate r tx)
       = plugintypes.tx_debugLog tx.
Proof.
  unfold actions.denyFn_Evaluate, actions.noID, actions.noStatus,
    actions.http_StatusForbidden.
  eexists. split; [reflexivity |]. cbn.
  destruct (Z.eqb_spec (plugintypes.ID r) 0) as [Hid | Hid];
    destruct (Z.eqb_spec (plugintypes.Status r) 0) as [Hst | Hst];
    repeat split; intros; congruence.
Qed.
End deny_properties.

(** ** The names view of a named collection *)

Section names_properties.
Context `{Variables}.

Lemma In_namesOf c ds r :
  In r (collections.namesOf c ds)
  <-> exists d, In d ds
        /\ r = {| types.Variable_ := collections.variable c;
                  types.Key_ := collections.key d;
                  types.Value_ := collections.key d |}.
Proof.
  unfold collections.namesOf. rewrite in_map_iff.
  split; intros (d & H1 & H2); exists d; [split; [exact H2 | now symmetry] |].
  split; [now symmetry | exact H1].
Qed.

Lemma In_rangeData c k ds :
  In (k, ds) (collections.rangeData c)
  <-> collections.data (collections.Map_ (collections.collection c)) !! k
      = Some ds.
Proof.
  unfold collections.rangeData.
  rewrite <- list_elem_of_In. apply elem_of_map_to_list.
Qed.

(** The record the names view builds for an entry. *)
Lemma In_FindAll c r :
  In r (collections.FindAll c)
  <-> exists k ds d,
        collections.data (collections.Map_ (collections.collection c)) !! k
          = Some ds
        /\ In d ds
        /\ r = {| types.Variable_ := collections.variable c;
                  types.Key_ := collections.key d;
                  types.Value_ := collections.key d |}.
Proof.
  unfold collections.FindAll. rewrite in_flat_map. split.
  - intros ([k ds] & Hkd & Hr). apply In_rangeData in Hkd.
    apply In_namesOf in Hr as (d & Hd & ->). exists k, ds, d. auto.
  - intros (k & ds & d & Hkd & Hd & ->). exists (k, ds). split.
    + apply In_rangeData. exact Hkd.
    + apply In_namesOf. exists d. auto.
Qed.

Lemma In_FindString c key r :
  In r (collections.FindString c key)
  <-> exists ds d,
        collections.data (collections.Map_ (collections.collection c)) !! key
          = Some ds
        /\ In d ds
        /\ r = {| types.Variable_ := collections.variable c;
                  types.Key_ := collections.key d;
                  types.Value_ := collections.key d |}.
Proof.
  unfold collections.FindString. rewrite in_flat_map. split.
  - intros ([k ds] & Hkd & Hr). apply In_rangeData in Hkd. simpl in Hr.
    destruct (String.eqb_spec k key) as [-> | Hne]; simpl in Hr; [| tauto].
    apply In_namesOf in Hr as (d & Hd & ->). exists ds, d. auto.
  - intros (ds & d & Hkd & Hd & ->). exists (key, ds). split.
    + apply In_rangeData. exact Hkd.
    + simpl. rewrite String.eqb_refl. simpl. apply In_namesOf. exists d. auto.
Qed.

Lemma In_FindRegex c re r :
  In r (collections.FindRegex c re)
  <-> exists k ds d,
        collections.data (collections.Map_ (collections.collection c)) !! k
          = Some ds
        /\ operators.MatchString re k = true
        /\ In d ds
        /\ r = {| types.Variable_ := collections.variable c;
                  types.Key_ := collections.key d;
                  types.Value_ := collections.key d |}.
Proof.
  unfold collections.FindRegex. rewrite in_flat_map. split.
  - intros ([k ds] & Hkd & Hr). apply In_rangeData in Hkd. simpl in Hr.
    destruct (operators.MatchString re k) eqn:Hm; simpl in Hr; [| tauto].
    apply In_namesOf in Hr as (d & Hd & ->). exists k, ds, d. auto.
  - intros (k & ds & d & Hkd & Hm & Hd & ->). exists (k, ds). split.
    + apply In_rangeData. exact Hkd.
    + simpl. rewrite Hm. simpl. apply In_namesOf. exists d. auto.
Qed.

(** An entry added under a key is filed with that very key, in its original
    case, and the names view lists it so. *)
Lemma names_view_lists_added_key nc key value rv :
  In {| types.Variable_ := rv; types.Key_ := key; types.Value_ := key |}
     (collections.FindAll
        (collections.Names (collections.NamedCollection_Add nc key value) rv)).
Proof.
  apply In_FindAll.
  cbn [collections.Names collections.collection collections.variable
       collections.NamedCollection_Add collections.Map_ collections.Map_Add
       collections.data].
  eexists _, _, {| collections.key := key; collections.value := value |}.
  split; [apply lookup_insert_eq |]. split; [| reflexivity].
  apply in_or_app. right. left. reflexivity.
Qed.

(** C7: every record that [FindAll], [FindString] or [FindRegex] of the
    names view returns carries the variable of the view and comes from a
    stored entry, whose key (the original-case key the entry is tagged
    with) it has both as key and as value. *)
Theorem names_view_records c key re r :
  In r (collections.FindAll c ++ collections.FindString c key
        ++ collections.FindRegex c re) ->
  types.Variable_ r = collections.variable c
  /\ types.Value_ r = types.Key_ r
  /\ exists k ds d,
       collections.data (collections.Map_ (collections.collection c)) !! k
         = Some ds
       /\ In d ds
       /\ types.Key_ r = collections.key d.
Proof.
  intros Hin.
  apply in_app_or in Hin as [Hin | Hin];
    [| apply in_app_or in Hin as [Hin | Hin]].
  - apply In_FindAll in Hin as (k & ds & d & Hk & Hd & ->).
    repeat split. exists k, ds, d. auto.
  - apply In_FindString in Hin as (ds & d & Hk & Hd & ->).
    repeat split. exists key, ds, d. auto.
  - apply In_FindRegex in Hin as (k & ds & d & Hk & _ & Hd & ->).
    repeat split. exists k, ds, d. auto.
Qed.

(** Every stored entry has its record in [FindAll] of the names view. *)
Lemma names_view_FindAll_complete c k ds d :
  collections.data (collections.Map_ (collections.collection c)) !! k
    = Some ds ->
  In d ds ->
  In {| types.Variable_ := collections.variable c;
        types.Key_ := collections.key d;
        types.Value_ := collections.key d |} (collections.FindAll c).
Proof. intros Hk Hd. apply In_FindAll. exists k, ds, d. auto. Qed.

(** C10: [Get] of the names view is [Get] of the underlying map: what it
    returns are the values of the entries stored under the key, in their
    order, not their names. *)
Theorem names_view_Get_returns_values c key :
  collections.Get c key
  = collections.Map_Get (collections.Map_ (collections.collection c)) key
  /\ collections.Get c key
     = map collections.value
         (default []
            (collections.data (collections.Map_ (collections.collection c))
               !! collections.Map_foldKey
                    (collections.Map_ (collections.collection c)) key))
  /\ (forall v,
        In v (collections.Get c key)
        <-> exists ds d,
              collections.data (collections.Map_ (collections.collection c))
                !! collections.Map_foldKey
                     (collections.Map_ (collections.collection c)) key
                = Some ds
              /\ In d ds /\ v = collections.value d).
Proof.
  split; [reflexivity |]. split; [reflexivity |].
  intros v. unfold collections.Get, collections.Map_Get.
  rewrite in_map_iff.
  destruct (collections.data _ !! _) as [ds |]; simpl.
  - split.
    + intros (d & <- & Hd). exists ds, d. auto.
    + intros (ds' & d & [= <-] & Hd & ->). exists d. auto.
  - split; [intros (d & _ & []) | intros (ds & d & [=] & _)].
Qed.

(** After [Add], [Get] of the names view ends with the added value. *)
Lemma names_view_Get_after_Add nc key value rv :
  collections.Get
    (collections.Names (collections.NamedCollection_Add nc key value) rv) key
  = (collections.Get (collections.Names nc rv) key ++ [value])%list.
Proof.
  unfold collections.Get, collections.Map_Get. simpl.
  unfold collections.Map_foldKey at 1. simpl.
  change (if collections.isCaseSensitive (collections.Map_ nc)
          then key else strings_ToLower key)
    with (collections.Map_foldKey (collections.Map_ nc) key).
  rewrite lookup_insert_eq. simpl. rewrite map_app. reflexivity.
Qed.
End names_properties.

(** ** Macros: the text of a reference token *)

Section reference_properties.
Context `{Variables}.

Lemma string_app_assoc (a b c : string) : (a ++ b) ++ c = a ++ (b ++ c).
Proof.
  induction a as [| x a IH]; [reflexivity |].
  change (String x ((a ++ b) ++ c) = String x (a ++ (b ++ c))).
  rewrite IH. reflexivity.
Qed.

Lemma string_app_nil_r (a : string) : a ++ EmptyString = a.
Proof.
  induction a as [| x a IH]; [reflexivity |].
  change (String x (a ++ EmptyString) = String x a).
  rewrite IH. reflexivity.
Qed.

Lemma isValidMacroChar_plain c :
  macro.isValidMacroChar c = true ->
  byte_eqb c "%" = false /\ byte_eqb c "}" = false.
Proof.
  destruct c as [[] [] [] [] [] [] [] []]; vm_compute; intros; split;
    congruence.
Qed.

(** Inside a reference the loop collects the allowed bytes up to the
    closing brace. *)
Lemma compile_loop_reference_body body : forall rest prev tokens cur,
  allValidMacroChars body = true ->
  macro.compile_loop (body ++ String "}" rest) prev tokens cur true
  = macro.compile_loop (String "}" rest) (lastByte prev body) tokens
      (cur ++ body) true.
Proof.
  induction body as [| c body IH]; intros rest prev tokens cur Hvalid.
  - change (EmptyString ++ String "}" rest) with (String "}" rest).
    rewrite string_app_nil_r. reflexivity.
  - simpl in Hvalid. apply andb_prop in Hvalid as [Hc Hbody].
    destruct (isValidMacroChar_plain c Hc) as [Hpct Hbrace].
    change (String c body ++ String "}" rest)
      with (String c (body ++ String "}" rest)).
    cbn [macro.compile_loop]. rewrite Hpct, Hbrace, Hc. cbn [andb negb].
    destruct (body ++ String "}" rest) as [| c' rest'] eqn:E.
    { destruct body; discriminate. }
    rewrite <- E, IH by exact Hbody.
    cbn [lastByte]. rewrite string_app_assoc. reflexivity.
Qed.

(** The closing brace of a reference appends one token whose text is the
    text collected since the opener: the reference without its
    delimiters. *)
Lemma compile_loop_closing_brace rest prev tokens cur varName k found v :
  byte_eqb prev "." = false ->
  strings_Cut_dot cur = (varName, k, found) ->
  variables_Parse varName = Some v ->
  macro.compile_loop (String "}" rest) prev tokens cur true
  = macro.compile_loop rest "}"
      (tokens ++ [{| macro.text := cur;
                     macro.variable := v;
                     macro.key := strings_ToLower k |}])
      EmptyString false.
Proof.
  intros Hprev Hcut Hparse. cbn [macro.compile_loop].
  change (byte_eqb "}" "}") with true. change (byte_eqb "}" "%") with false.
  cbn [andb]. rewrite Hprev, Hcut, Hparse.
  destruct rest; reflexivity.
Qed.

(** A template made of one reference compiles into one token, and the text
    of that token is the inside of the reference. *)
Lemma NewMacro_single_reference body varName k found v :
  allValidMacroChars body = true ->
  byte_eqb (lastByte "{" body) "." = false ->
  strings_Cut_dot body = (varName, k, found) ->
  variables_Parse varName = Some v ->
  macro.NewMacro ("%{" ++ body ++ "}")
  = Ok {| macro.original := "%{" ++ body ++ "}";
          macro.tokens := [{| macro.text := body;
                              macro.variable := v;
                              macro.key := strings_ToLower k |}] |}.
Proof.
  intros Hvalid Hlast Hcut Hparse.
  change ("%{" ++ body ++ "}") with (String "%" (String "{" (body ++ "}"))).
  unfold macro.NewMacro, macro.compile. cbn [macro.tokens macro.compile_loop].
  change (byte_eqb "%" "%" && byte_eqb "{" "{") with true. cbv iota.
  cbn [macro.flushLiteral].
  rewrite compile_loop_reference_body by exact Hvalid.
  rewrite (compile_loop_closing_brace _ _ _ _ varName k found v Hlast Hcut Hparse).
  reflexivity.
Qed.

(** Expanded against a keyed collection without the key, such a macro
    yields the inside of the reference, not the template. *)
Lemma Expand_single_reference_absent body varName k found v tx col :
  allValidMacroChars body = true ->
  byte_eqb (lastByte "{" body) "." = false ->
  strings_Cut_dot body = (varName, k, found) ->
  variables_Parse varName = Some v ->
  v <> Unknown ->
  plugintypes.Collection tx v = collection.IsKeyed col ->
  collection.Keyed_Get col (strings_ToLower k) = [] ->
  exists m,
    macro.NewMacro ("%{" ++ body ++ "}") = Ok m
    /\ fst (macro.Expand m tx) = body.
Proof.
  intros Hvalid Hlast Hcut Hparse Hv Hcol Hget.
  eexists. split.
  - apply (NewMacro_single_reference body varName k found v); assumption.
  - unfold macro.Expand. cbn [macro.tokens].
    rewrite (expandToken_keyed_absent tx _ col); [reflexivity | | |]; assumption.
Qed.
End reference_properties.

(** ** The definitions at work on concrete inputs *)

Import examples.

(** C1: the template [prefix %{tx.foo} suffix], expanded against a
    transaction whose [TX] collection lacks [foo], yields
    [prefix tx.foo suffix], the reference without its delimiters, and logs
    one warning; with [foo] set to [bar] it yields [prefix bar suffix] and
    logs nothing. *)
Theorem Expand_unset_key_drops_delimiters :
  exists m,
    macro.NewMacro "prefix %{tx.foo} suffix" = Ok m
    /\ fst (macro.Expand m (exampleTx false [])) = "prefix tx.foo suffix"
    /\ plugintypes.tx_debugLog (snd (macro.Expand m (exampleTx false [])))
       = [{| plugintypes.log_level := "warn";
             plugintypes.log_fields := [("variable", "TX"); ("key", "foo")];
             plugintypes.log_msg :=
               "key not found in collection, returning the original text" |}]
    /\ fst (macro.Expand m (exampleTx false [("foo", "bar")]))
       = "prefix bar suffix"
    /\ plugintypes.tx_debugLog
         (snd (macro.Expand m (exampleTx false [("foo", "bar")]))) = [].
Proof. eexists. split; [reflexivity |]. repeat split. Qed.

(** The key of a reference is folded to lower case, and so is the key of
    the collection: [%{tx.FOO}] finds the value stored under [Foo]. *)
Example Expand_folds_key_case :
  exists m,
    macro.NewMacro "%{tx.FOO}" = Ok m
    /\ fst (macro.Expand m (exampleTx false [("Foo", "bar"); ("foo", "baz")]))
       = "bar".
Proof. eexists. split; reflexivity. Qed.

(** A pattern with eleven groups, matched in capturing mode: slots 0 to 8
    are written, slot 9 and the slots behind it are not. *)
Lemma Evaluate_captures_first_nine_witness :
  plugintypes.Capturing (exampleTx true []) = true
  /\ fst (operators.Evaluate
            (operators.Operator_rx {| operators.rx_re := elevenGroups |})
            (exampleTx true []) "abcdefghijk") = true
  /\ plugintypes.tx_captures
       (snd (operators.Evaluate
               (operators.Operator_rx {| operators.rx_re := elevenGroups |})
               (exampleTx true []) "abcdefghijk")) !! 8 = Some "h"
  /\ plugintypes.tx_captures
       (snd (operators.Evaluate
               (operators.Operator_rx {| operators.rx_re := elevenGroups |})
               (exampleTx true []) "abcdefghijk")) !! 9 = None.
Proof.
  assert (Hcap : plugintypes.Capturing (exampleTx true []) = true)
    by reflexivity.
  assert (Hlen : (0 < length (operators.FindStringSubmatch
                                (operators.Operator_re
                                   (operators.Operator_rx
                                      {| operators.rx_re := elevenGroups |}))
                                "abcdefghijk"))%nat)
    by (vm_compute; lia).
  destruct (Evaluate_captures_first_nine _ _ _ Hcap Hlen)
    as (Htrue & _ & Hlow & Hhigh).
  split; [exact Hcap |]. split; [exact Htrue |]. split.
  - apply (Hlow 8%nat); [lia | reflexivity].
  - rewrite Hhigh by lia. reflexivity.
Defined.

(** The same pattern on a value it does not match. *)
Lemma Evaluate_no_match_no_capture_witness :
  operators.Evaluate
    (operators.Operator_binaryRX {| operators.binaryRX_re := elevenGroups |})
    (exampleTx true []) "abc"
  = (false, exampleTx true []).
Proof.
  apply Evaluate_no_match_no_capture; reflexivity.
Defined.



(** The names view of a collection that holds [bar] under [Foo]. *)
Lemma names_view_records_witness :
  types.Variable_
    {| types.Variable_ := vARGS_NAMES; types.Key_ := "Foo";
       types.Value_ := "Foo" |} = vARGS_NAMES
  /\ In {| types.Variable_ := vARGS_NAMES; types.Key_ := "Foo";
           types.Value_ := "Foo" |}
        (collections.FindAll
           (collections.Names
              (collections.NamedCollection_Add
                 (collections.NewNamedCollection vARGS) "Foo" "bar")
              vARGS_NAMES)).
Proof.
  assert (Hin :
    In {| types.Variable_ := vARGS_NAMES; types.Key_ := "Foo";
          types.Value_ := "Foo" |}
       (collections.FindAll
          (collections.Names
             (collections.NamedCollection_Add
                (collections.NewNamedCollection vARGS) "Foo" "bar")
             vARGS_NAMES)
        ++ collections.FindString
             (collections.Names
                (collections.NamedCollection_Add
                   (collections.NewNamedCollection vARGS) "Foo" "bar")
                vARGS_NAMES) "foo"
        ++ collections.FindRegex
             (collections.Names
                (collections.NamedCollection_Add
                   (collections.NewNamedCollection vARGS) "Foo" "bar")
                vARGS_NAMES) (literalRegexp "fo")))
    by (vm_compute; left; reflexivity).
  destruct (names_view_records _ _ _ _ Hin) as (Hvar & _ & _).
  split; [exact Hvar |].
  vm_compute. left. reflexivity.
Defined.

(** On that collection [Get] of the names view returns the value, while
    the find operations report the name. *)
Example names_view_Get_versus_FindAll :
  collections.Get
    (collections.Names
       (collections.NamedCollection_Add
          (collections.NewNamedCollection vARGS) "Foo" "bar") vARGS_NAMES)
    "FOO" = ["bar"]
  /\ collections.FindAll
       (collections.Names
          (collections.NamedCollection_Add
             (collections.NewNamedCollection vARGS) "Foo" "bar") vARGS_NAMES)
     = [{| types.Variable_ := vARGS_NAMES; types.Key_ := "Foo";
           types.Value_ := "Foo" |}]
  /\ collections.FindString
       (collections.Names
          (collections.NamedCollection_Add
             (collections.NewNamedCollection vARGS) "Foo" "bar") vARGS_NAMES)
       "foo"
     = [{| types.Variable_ := vARGS_NAMES; types.Key_ := "Foo";
           types.Value_ := "Foo" |}].
Proof. repeat split; reflexivity. Qed.

(** A chained rule without ID and status: [deny] reports the parent's ID
    and status 403. *)
Example denyFn_Evaluate_chained :
  plugintypes.tx_interruption
    (actions.denyFn_Evaluate
       {| plugintypes.ID := 0; plugintypes.ParentID := 7;
          plugintypes.Status := 0 |} (exampleTx false []))
  = Some {| types.RuleID := 7; types.Action := "deny"; types.Status := 403 |}.
Proof. reflexivity. Qed.

(** * Further properties of the code *)

(** ** Macros: literal text, references and errors *)

Section macro_templates.
Context `{Variables}.

Lemma startsWithBrace_app lit suffix :
  startsWithBrace (lit ++ suffix)
  = match lit with
    | EmptyString => startsWithBrace suffix
    | String _ _ => startsWithBrace lit
    end.
Proof. destruct lit; reflexivity. Qed.

(** Outside a reference, text without opener is collected byte by byte. *)
Lemma compile_loop_literal lit : forall suffix prev tokens cur,
  noOpener lit = true ->
  startsWithBrace suffix = false ->
  macro.compile_loop (lit ++ suffix) prev tokens cur false
  = macro.compile_loop suffix (lastByte prev lit) tokens (cur ++ lit) false.
Proof.
  induction lit as [| c lit IH]; intros suffix prev tokens cur Hlit Hsuf.
  - change (EmptyString ++ suffix) with suffix.
    rewrite string_app_nil_r. reflexivity.
  - cbn [noOpener] in Hlit. apply andb_prop in Hlit as [Hopen Hlit].
    apply negb_true_iff in Hopen.
    change (String c lit ++ suffix) with (String c (lit ++ suffix)).
    cbn [macro.compile_loop lastByte].
    assert (Hno : byte_eqb c "%" && startsWithBrace (lit ++ suffix) = false).
    { rewrite startsWithBrace_app. destruct lit; [| exact Hopen].
      rewrite Hsuf. apply andb_false_r. }
    replace (cur ++ String c lit) with ((cur ++ String c EmptyString) ++ lit)
      by (rewrite string_app_assoc; reflexivity).
    rewrite <- (IH suffix c tokens _ Hlit Hsuf).
    destruct (lit ++ suffix) as [| c' rest']; [reflexivity |].
    cbn [startsWithBrace] in Hno. rewrite Hno. reflexivity.
Qed.

(** The single-token shortcut of [Expand] agrees with its loop. *)
Lemma Expand_as_loop m tx :
  macro.Expand m tx = macro.expandTokens tx (macro.tokens m) EmptyString.
Proof.
  unfold macro.Expand. destruct (macro.tokens m) as [| t [| t' ts]];
    try reflexivity.
  cbn [macro.expandTokens]. destruct (macro.expandToken tx t). reflexivity.
Qed.

Lemma expandTokens_app l1 : forall l2 tx res,
  macro.expandTokens tx (l1 ++ l2)%list res
  = macro.expandTokens (snd (macro.expandTokens tx l1 res)) l2
      (fst (macro.expandTokens tx l1 res)).
Proof.
  induction l1 as [| t l1 IH]; intros l2 tx res; [reflexivity |].
  cbn [app macro.expandTokens]. destruct (macro.expandToken tx t) as [s tx'].
  apply IH.
Qed.

Lemma expandTokens_flushLiteral tokens lit tx res :
  macro.expandTokens tx (macro.flushLiteral tokens lit) res
  = (fst (macro.expandTokens tx tokens res) ++ lit,
     snd (macro.expandTokens tx tokens res)).
Proof.
  destruct lit as [| c lit].
  - cbn [macro.flushLiteral]. rewrite string_app_nil_r.
    destruct (macro.expandTokens tx tokens res); reflexivity.
  - cbn [macro.flushLiteral]. rewrite expandTokens_app.
    cbn [macro.expandTokens]. rewrite expandToken_literal. reflexivity.
Qed.

(** X1: a template that is not empty and holds no opener compiles into one
    literal token, and its expansion is the template itself, with the
    transaction untouched. *)
Theorem NewMacro_literal_round_trip data :
  (0 < String.length data)%nat ->
  noOpener data = true ->
  macro.NewMacro data
  = Ok {| macro.original := data;
          macro.tokens := [macro.literalToken data] |}
  /\ forall tx,
       macro.Expand {| macro.original := data;
                       macro.tokens := [macro.literalToken data] |} tx
       = (data, tx).
Proof.
  intros Hlen Hlit. split.
  - pose proof (compile_loop_literal data EmptyString "000"%char [] EmptyString
                  Hlit eq_refl) as Hloop.
    rewrite string_app_nil_r in Hloop.
    destruct data as [| c data]; [simpl in Hlen; lia |].
    unfold macro.NewMacro, macro.compile. cbn [macro.tokens].
    rewrite Hloop. reflexivity.
  - intros tx. unfold macro.Expand. cbn [macro.tokens].
    apply expandToken_literal.
Qed.
End macro_templates.

Section macro_references.
Context `{Variables}.

Lemma string_app_nil_l (a : string) : EmptyString ++ a = a.
Proof. reflexivity. Qed.

Lemma lastByte_app prev body suffix :
  lastByte prev (body ++ suffix) = lastByte (lastByte prev body) suffix.
Proof.
  revert prev. induction body as [| c body IH]; intros prev; [reflexivity |].
  change (String c body ++ suffix) with (String c (body ++ suffix)).
  cbn [lastByte]. apply IH.
Qed.

Lemma allValidMacroChars_app a b :
  allValidMacroChars (a ++ b) = allValidMacroChars a && allValidMacroChars b.
Proof.
  induction a as [| c a IH]; [reflexivity |].
  change (String c a ++ b) with (String c (a ++ b)).
  cbn [allValidMacroChars]. rewrite IH. apply andb_assoc.
Qed.

(** Inside a reference the loop collects allowed bytes as long as input
    remains. *)
Lemma compile_loop_reference_prefix body : forall suffix prev tokens cur,
  allValidMacroChars body = true ->
  suffix <> EmptyString ->
  macro.compile_loop (body ++ suffix) prev tokens cur true
  = macro.compile_loop suffix (lastByte prev body) tokens (cur ++ body) true.
Proof.
  induction body as [| c body IH]; intros suffix prev tokens cur Hvalid Hsuf.
  - rewrite string_app_nil_l, string_app_nil_r. reflexivity.
  - cbn [allValidMacroChars] in Hvalid.
    apply andb_prop in Hvalid as [Hc Hbody].
    destruct (isValidMacroChar_plain c Hc) as [Hpct Hbrace].
    change (String c body ++ suffix) with (String c (body ++ suffix)).
    cbn [macro.compile_loop]. rewrite Hpct, Hbrace, Hc. cbn [andb negb].
    destruct (body ++ suffix) as [| c' rest'] eqn:E.
    { destruct body; [contradiction | discriminate]. }
    rewrite <- E, IH by assumption.
    cbn [lastByte]. rewrite string_app_assoc. reflexivity.
Qed.

(** The opener is read as such in whatever state the loop is. *)
Lemma compile_loop_opener suffix prev tokens cur isMacro :
  macro.compile_loop ("%{" ++ suffix) prev tokens cur isMacro
  = macro.compile_loop suffix "{" (macro.flushLiteral tokens cur)
      EmptyString true.
Proof. reflexivity. Qed.

(** Literal text and then an opener. *)
Lemma compile_loop_literal_then_opener pre suffix prev tokens cur :
  noOpener pre = true ->
  macro.compile_loop (pre ++ "%{" ++ suffix) prev tokens cur false
  = macro.compile_loop suffix "{" (macro.flushLiteral tokens (cur ++ pre))
      EmptyString true.
Proof.
  intros Hpre.
  rewrite (compile_loop_literal pre ("%{" ++ suffix) prev tokens cur Hpre
             eq_refl).
  apply compile_loop_opener.
Qed.

(** Whatever precedes an opener, the loop fails before it or reads what
    follows it as a reference. *)
Lemma compile_loop_reaches_opener suffix :
  forall n pre, (String.length pre <= n)%nat ->
  forall prev tokens cur isMacro,
    is_Ok (macro.compile_loop (pre ++ "%{" ++ suffix) prev tokens cur isMacro)
    = false
    \/ exists tokens',
         macro.compile_loop (pre ++ "%{" ++ suffix) prev tokens cur isMacro
         = macro.compile_loop suffix "{" tokens' EmptyString true.
Proof.
  induction n as [n IH] using lt_wf_ind.
  intros pre Hlen prev tokens cur isMacro.
  destruct pre as [| c pre'].
  - right. rewrite string_app_nil_l. eexists. apply compile_loop_opener.
  - change (String c pre' ++ "%{" ++ suffix)
      with (String c (pre' ++ "%{" ++ suffix)).
    cbn [macro.compile_loop].
    assert (Hrest : forall prev' tokens' cur' isMacro',
      is_Ok (macro.compile_loop (pre' ++ "%{" ++ suffix) prev' tokens' cur'
               isMacro') = false
      \/ exists tokens'',
           macro.compile_loop (pre' ++ "%{" ++ suffix) prev' tokens' cur'
             isMacro'
           = macro.compile_loop suffix "{" tokens'' EmptyString true).
    { intros. apply (IH (String.length pre')); [simpl in Hlen; lia | lia]. }
    destruct (pre' ++ "%{" ++ suffix) as [| c' rest'] eqn:Erest.
    { destruct pre'; discriminate. }
    destruct (byte_eqb c "%" && byte_eqb c' "{") eqn:Eopen.
    + apply andb_prop in Eopen as [_ Ec'].
      destruct pre' as [| p pre''].
      * simpl in Erest. injection Erest as <- _. discriminate.
      * simpl in Erest. injection Erest as _ <-.
        apply (IH (String.length pre'')); simpl in Hlen; lia.
    + destruct isMacro; [| apply Hrest].
      destruct (byte_eqb c "}").
      * destruct (byte_eqb prev "."); [left; reflexivity |].
        destruct (strings_Cut_dot cur) as [[varName k] found].
        destruct (variables_Parse varName); [apply Hrest | left; reflexivity].
      * destruct (negb (macro.isValidMacroChar c));
          [left; reflexivity | apply Hrest].
Qed.

(** A reference that cannot be compiled makes the template fail, wherever
    in the template it stands. *)
Lemma NewMacro_fails_after_opener pre suffix :
  (forall tokens,
     is_Ok (macro.compile_loop suffix "{" tokens EmptyString true) = false) ->
  is_Ok (macro.NewMacro (pre ++ "%{" ++ suffix)) = false.
Proof.
  intros Hfail.
  unfold macro.NewMacro, macro.compile.
  destruct (pre ++ "%{" ++ suffix) eqn:E; [reflexivity |].
  rewrite <- E. cbn [macro.tokens].
  destruct (compile_loop_reaches_opener suffix (String.length pre) pre
              (le_n _) "000"%char [] EmptyString false) as [Herr | [ts Heq]].
  - destruct (macro.compile_loop _ _ _ _ _); [discriminate | reflexivity].
  - rewrite Heq. specialize (Hfail ts).
    destruct (macro.compile_loop _ _ _ _ _); [discriminate | reflexivity].
Qed.

(** The result of [NewMacro] on literal text followed by an opener. *)
Lemma NewMacro_literal_then_opener pre suffix :
  noOpener pre = true ->
  macro.NewMacro (pre ++ "%{" ++ suffix)
  = match macro.compile_loop suffix "{" (macro.flushLiteral [] pre)
            EmptyString true with
    | Ok ts => Ok {| macro.original := pre ++ "%{" ++ suffix;
                     macro.tokens := ts |}
    | Err e => Err e
    end.
Proof.
  intros Hpre. unfold macro.NewMacro, macro.compile.
  destruct (pre ++ "%{" ++ suffix) eqn:E; [destruct pre; discriminate |].
  rewrite <- E. cbn [macro.tokens].
  rewrite compile_loop_literal_then_opener by exact Hpre.
  rewrite string_app_nil_l. reflexivity.
Qed.

(** X2: a reference whose closing brace comes right after a dot (an empty
    key) makes the template fail wherever it stands; when only literal text
    precedes it the error is the empty-variable-name error. *)
Theorem NewMacro_rejects_empty_key pre body rest :
  allValidMacroChars body = true ->
  is_Ok (macro.NewMacro (pre ++ "%{" ++ (body ++ ".") ++ String "}" rest))
  = false
  /\ (noOpener pre = true ->
      macro.NewMacro (pre ++ "%{" ++ (body ++ ".") ++ String "}" rest)
      = Err macro.errEmptyVariableName).
Proof.
  intros Hvalid.
  assert (Hbody : allValidMacroChars (body ++ ".") = true).
  { rewrite allValidMacroChars_app, Hvalid. reflexivity. }
  assert (Hloop : forall tokens,
    macro.compile_loop ((body ++ ".") ++ String "}" rest) "{" tokens
      EmptyString true = Err macro.errEmptyVariableName).
  { intros tokens. rewrite compile_loop_reference_body by exact Hbody.
    rewrite lastByte_app. cbn [lastByte macro.compile_loop].
    destruct rest; reflexivity. }
  split.
  - apply NewMacro_fails_after_opener. intros tokens. rewrite Hloop.
    reflexivity.
  - intros Hpre. rewrite NewMacro_literal_then_opener by exact Hpre.
    rewrite Hloop. reflexivity.
Qed.

(** X3: a reference to a variable that [variables.Parse] does not know
    makes the template fail wherever it stands; when only literal text
    precedes it the error names the text before the first dot. *)
Theorem NewMacro_rejects_unknown_variable pre body rest varName k found :
  allValidMacroChars body = true ->
  byte_eqb (lastByte "{" body) "." = false ->
  strings_Cut_dot body = (varName, k, found) ->
  variables_Parse varName = None ->
  is_Ok (macro.NewMacro (pre ++ "%{" ++ body ++ String "}" rest)) = false
  /\ (noOpener pre = true ->
      macro.NewMacro (pre ++ "%{" ++ body ++ String "}" rest)
      = Err (macro.errUnknownVariable varName)).
Proof.
  intros Hvalid Hlast Hcut Hparse.
  assert (Hloop : forall tokens,
    macro.compile_loop (body ++ String "}" rest) "{" tokens EmptyString true
    = Err (macro.errUnknownVariable varName)).
  { intros tokens. rewrite compile_loop_reference_body by exact Hvalid.
    rewrite string_app_nil_l. cbn [macro.compile_loop].
    change (byte_eqb "}" "}") with true. change (byte_eqb "}" "%") with false.
    cbn [andb]. rewrite Hlast, Hcut, Hparse. destruct rest; reflexivity. }
  split.
  - apply NewMacro_fails_after_opener. intros tokens. rewrite Hloop.
    reflexivity.
  - intros Hpre. rewrite NewMacro_literal_then_opener by exact Hpre.
    rewrite Hloop. reflexivity.
Qed.

(** X4: a byte that is not allowed inside a reference (and is neither the
    closing brace nor the start of a further opener) makes the template
    fail wherever the reference stands; when only literal text precedes the
    reference the error quotes the reference up to that byte. *)
Theorem NewMacro_rejects_invalid_byte pre body c rest :
  allValidMacroChars body = true ->
  macro.isValidMacroChar c = false ->
  byte_eqb c "}" = false ->
  byte_eqb c "%" && startsWithBrace rest = false ->
  is_Ok (macro.NewMacro (pre ++ "%{" ++ body ++ String c rest)) = false
  /\ (noOpener pre = true ->
      macro.NewMacro (pre ++ "%{" ++ body ++ String c rest)
      = Err (macro.errMalformedVariable ("%{" ++ body))).
Proof.
  intros Hvalid Hc Hbrace Hopen.
  assert (Hloop : forall tokens,
    macro.compile_loop (body ++ String c rest) "{" tokens EmptyString true
    = Err (macro.errMalformedVariable ("%{" ++ body))).
  { intros tokens.
    rewrite compile_loop_reference_prefix by (assumption || discriminate).
    rewrite string_app_nil_l. cbn [macro.compile_loop].
    rewrite Hbrace, Hc. cbn [negb].
    destruct rest as [| c' rest']; [reflexivity |].
    cbn [startsWithBrace] in Hopen. rewrite Hopen. reflexivity. }
  split.
  - apply NewMacro_fails_after_opener. intros tokens. rewrite Hloop.
    reflexivity.
  - intros Hpre. rewrite NewMacro_literal_then_opener by exact Hpre.
    rewrite Hloop. reflexivity.
Qed.
End macro_references.

Section macro_expansion.
Context `{Variables}.

(** The tokens of a template made of literal text, one reference, and
    literal text. *)
Lemma NewMacro_reference_in_text pre body post varName k found v :
  noOpener pre = true ->
  allValidMacroChars body = true ->
  byte_eqb (lastByte "{" body) "." = false ->
  strings_Cut_dot body = (varName, k, found) ->
  variables_Parse varName = Some v ->
  noOpener post = true ->
  macro.NewMacro (pre ++ "%{" ++ body ++ String "}" post)
  = Ok {| macro.original := pre ++ "%{" ++ body ++ String "}" post;
          macro.tokens :=
            macro.flushLiteral
              (macro.flushLiteral [] pre
               ++ [{| macro.text := body;
                      macro.variable := v;
                      macro.key := strings_ToLower k |}])%list
              post |}.
Proof.
  intros Hpre Hvalid Hlast Hcut Hparse Hpost.
  rewrite NewMacro_literal_then_opener by exact Hpre.
  rewrite compile_loop_reference_body by exact Hvalid.
  rewrite string_app_nil_l.
  rewrite (compile_loop_closing_brace _ _ _ _ varName k found v Hlast Hcut
             Hparse).
  pose proof (compile_loop_literal post EmptyString "}"
                (macro.flushLiteral [] pre
                 ++ [{| macro.text := body;
                        macro.variable := v;
                        macro.key := strings_ToLower k |}])%list
                EmptyString Hpost eq_refl) as Hloop.
  rewrite string_app_nil_r, string_app_nil_l in Hloop.
  rewrite Hloop. reflexivity.
Qed.

(** X5: a template made of literal text, one reference to a keyed
    collection and literal text expands, when the collection holds values
    under the lower-cased key, to the literal texts around the first of
    those values, and the transaction is left as it was. *)
Theorem Expand_reference_in_text pre body post varName k found v tx col c0 cs :
  noOpener pre = true ->
  allValidMacroChars body = true ->
  byte_eqb (lastByte "{" body) "." = false ->
  strings_Cut_dot body = (varName, k, found) ->
  variables_Parse varName = Some v ->
  noOpener post = true ->
  v <> Unknown ->
  plugintypes.Collection tx v = collection.IsKeyed col ->
  collection.Keyed_Get col (strings_ToLower k) = c0 :: cs ->
  exists m,
    macro.NewMacro (pre ++ "%{" ++ body ++ String "}" post) = Ok m
    /\ macro.Expand m tx = (pre ++ c0 ++ post, tx).
Proof.
  intros Hpre Hvalid Hlast Hcut Hparse Hpost Hv Hcol Hget.
  eexists. split.
  - apply (NewMacro_reference_in_text pre body post varName k found v);
      assumption.
  - rewrite Expand_as_loop. cbn [macro.tokens].
    rewrite expandTokens_flushLiteral, expandTokens_app,
      expandTokens_flushLiteral.
    cbn [macro.expandTokens fst snd].
    rewrite (expandToken_keyed_present tx
               {| macro.text := body; macro.variable := v;
                  macro.key := strings_ToLower k |} col c0 cs Hv Hcol Hget).
    cbn [fst snd]. rewrite string_app_nil_l, string_app_assoc. reflexivity.
Qed.

(** X6: an opener met inside a reference raises no error: the text read
    since the first opener becomes a literal token, and the second opener
    starts the reference anew. *)
Theorem NewMacro_opener_inside_reference body body2 varName k found v :
  allValidMacroChars body = true ->
  allValidMacroChars body2 = true ->
  byte_eqb (lastByte "{" body2) "." = false ->
  strings_Cut_dot body2 = (varName, k, found) ->
  variables_Parse varName = Some v ->
  macro.NewMacro ("%{" ++ body ++ "%{" ++ body2 ++ "}")
  = Ok {| macro.original := "%{" ++ body ++ "%{" ++ body2 ++ "}";
          macro.tokens :=
            (macro.flushLiteral [] body
             ++ [{| macro.text := body2;
                    macro.variable := v;
                    macro.key := strings_ToLower k |}])%list |}.
Proof.
  intros Hvalid Hvalid2 Hlast Hcut Hparse.
  rewrite <- (string_app_nil_l ("%{" ++ body ++ "%{" ++ body2 ++ "}")) at 1.
  rewrite NewMacro_literal_then_opener by reflexivity.
  rewrite string_app_nil_l.
  rewrite compile_loop_reference_prefix by (assumption || discriminate).
  rewrite compile_loop_opener, string_app_nil_l.
  rewrite compile_loop_reference_body by exact Hvalid2.
  rewrite string_app_nil_l.
  rewrite (compile_loop_closing_brace _ _ _ _ varName k found v Hlast Hcut
             Hparse).
  reflexivity.
Qed.

(** X7: [String] of a compiled macro is the template it was compiled
    from. *)
Theorem NewMacro_String_round_trip data m :
  macro.NewMacro data = Ok m ->
  macro.String_ m = data.
Proof.
  unfold macro.NewMacro, macro.compile. intros Hnew.
  destruct data as [| c data]; [discriminate |].
  destruct (macro.compile_loop _ _ _ _ _); [| discriminate].
  injection Hnew as <-. reflexivity.
Qed.

(** Expanding one token leaves the transaction alone or logs one
    warning. *)
Lemma expandToken_frame tx token :
  snd (macro.expandToken tx token) = tx
  \/ exists fields msg,
       snd (macro.expandToken tx token)
       = plugintypes.DebugLogger_Warn fields msg tx.
Proof.
  unfold macro.expandToken.
  destruct (decide (macro.variable token = Unknown)); [left; reflexivity |].
  destruct (plugintypes.Collection tx (macro.variable token)) as [col | col | all].
  - destruct (collection.Keyed_Get col (macro.key token));
      [right; eexists _, _; reflexivity | left; reflexivity].
  - left. reflexivity.
  - destruct all; [right; eexists _, _; reflexivity | left; reflexivity].
Qed.

Lemma expandTokens_frame ts : forall tx res,
  plugintypes.tx_Capturing (snd (macro.expandTokens tx ts res))
    = plugintypes.tx_Capturing tx
  /\ plugintypes.tx_captures (snd (macro.expandTokens tx ts res))
     = plugintypes.tx_captures tx
  /\ plugintypes.tx_captureCalls (snd (macro.expandTokens tx ts res))
     = plugintypes.tx_captureCalls tx
  /\ plugintypes.tx_interruption (snd (macro.expandTokens tx ts res))
     = plugintypes.tx_interruption tx
  /\ plugintypes.tx_Collection (snd (macro.expandTokens tx ts res))
     = plugintypes.tx_Collection tx
  /\ exists events,
       plugintypes.tx_debugLog (snd (macro.expandTokens tx ts res))
       = (plugintypes.tx_debugLog tx ++ events)%list
       /\ (length events <= length ts)%nat
       /\ Forall (fun e => plugintypes.log_level e = "warn") events.
Proof.
  induction ts as [| t ts IH]; intros tx res.
  - cbn [macro.expandTokens snd]. repeat split; try reflexivity.
    exists []. rewrite app_nil_r. repeat split; [simpl; lia | constructor].
  - cbn [macro.expandTokens].
    destruct (macro.expandToken tx t) as [s tx'] eqn:Et.
    destruct (IH tx' (res ++ s)) as (-> & -> & -> & -> & -> & events & -> & Hn & Hw).
    pose proof (expandToken_frame tx t) as Hf. rewrite Et in Hf. cbn [snd] in Hf.
    destruct Hf as [-> | (fields & msg & ->)].
    + repeat split; try reflexivity.
      exists events. repeat split; [simpl; lia | exact Hw].
    + cbn. repeat split; try reflexivity.
      eexists (_ :: events). rewrite <- app_assoc. cbn.
      repeat split; [simpl; lia |]. constructor; [reflexivity | exact Hw].
Qed.

(** X8: expanding a macro changes nothing of the transaction but its debug
    log, to which it only appends warnings, at most one per token. *)
Theorem Expand_only_appends_warnings m tx :
  plugintypes.tx_Capturing (snd (macro.Expand m tx))
    = plugintypes.tx_Capturing tx
  /\ plugintypes.tx_captures (snd (macro.Expand m tx))
     = plugintypes.tx_captures tx
  /\ plugintypes.tx_captureCalls (snd (macro.Expand m tx))
     = plugintypes.tx_captureCalls tx
  /\ plugintypes.tx_interruption (snd (macro.Expand m tx))
     = plugintypes.tx_interruption tx
  /\ plugintypes.tx_Collection (snd (macro.Expand m tx))
     = plugintypes.tx_Collection tx
  /\ exists events,
       plugintypes.tx_debugLog (snd (macro.Expand m tx))
       = (plugintypes.tx_debugLog tx ++ events)%list
       /\ (length events <= length (macro.tokens m))%nat
       /\ Forall (fun e => plugintypes.log_level e = "warn") events.
Proof. rewrite Expand_as_loop. apply expandTokens_frame. Qed.
End macro_expansion.

(** ** The [rx] operator: which patterns go to which engine *)

Section engine_choice.
Context `{Variables} `{operators.Engines}.

Lemma byte_val_range c : 0 <= byte_val c < 256.
Proof.
  unfold byte_val. pose proof (N_ascii_bounded c) as Hb. lia.
Qed.

Lemma byte_val_of_Z v : 0 <= v < 256 -> byte_val (byte_of_Z v) = v.
Proof.
  intros Hv. unfold byte_val, byte_of_Z.
  rewrite Z.mod_small by lia.
  rewrite N_ascii_embedding by lia. lia.
Qed.

(** Bytes below 128 in front of a sequence do not change its validity. *)
Lemma utf8_Valid_values_ascii_app l1 l2 :
  Forall (fun b => b < 128) l1 ->
  utf8_Valid_values (l1 ++ l2) = utf8_Valid_values l2.
Proof.
  induction 1 as [| b l1 Hb _ IH]; [reflexivity |].
  cbn [app utf8_Valid_values].
  destruct (Z.ltb_spec b 128); [exact IH | lia].
Qed.

Lemma isASCII_values s :
  isASCII s = true ->
  Forall (fun b => b < 128) (map byte_val (list_ascii_of_string s)).
Proof.
  induction s as [| c s IH]; intros Hs; [constructor |].
  cbn [isASCII] in Hs. apply andb_prop in Hs as [Hc Hs].
  cbn [list_ascii_of_string map]. constructor; [lia | auto].
Qed.

(** Without the letter [x] behind a backslash nothing is decoded. *)
Lemma decodeByteEscapes_no_escape expr :
  noHexEscape expr = true ->
  operators.decodeByteEscapes expr = list_ascii_of_string expr.
Proof.
  induction expr as [| c rest IH]; intros Hno; [reflexivity |].
  cbn [noHexEscape] in Hno. apply andb_prop in Hno as [Hc Hrest].
  apply negb_true_iff in Hc. specialize (IH Hrest).
  cbn [operators.decodeByteEscapes list_ascii_of_string].
  destruct (byte_eqb c "\") eqn:Ec; cbn [negb]; [| now rewrite IH].
  cbn [andb] in Hc.
  destruct rest as [| x [| h1 [| h2 rest']]]; try reflexivity.
  cbn [startsWithX] in Hc. rewrite Hc. cbn [negb]. now rewrite IH.
Qed.

(** Text without backslash in front of a pattern is decoded to itself. *)
Lemma decodeByteEscapes_plain_prefix pre expr :
  noBackslash pre = true ->
  operators.decodeByteEscapes (pre ++ expr)
  = (list_ascii_of_string pre ++ operators.decodeByteEscapes expr)%list.
Proof.
  induction pre as [| c pre IH]; intros Hpre; [reflexivity |].
  cbn [noBackslash] in Hpre. apply andb_prop in Hpre as [Hc Hpre].
  change (String c pre ++ expr) with (String c (pre ++ expr)).
  cbn [operators.decodeByteEscapes list_ascii_of_string app].
  rewrite Hc, IH by exact Hpre. reflexivity.
Qed.

(** X9: decoding never yields more bytes than the pattern text has. *)
Theorem decodeByteEscapes_length expr :
  (length (operators.decodeByteEscapes expr) <= String.length expr)%nat.
Proof.
  assert (Hlist : forall s, length (list_ascii_of_string s) = String.length s).
  { induction s; simpl; congruence. }
  assert (Hall : forall n e, (String.length e <= n)%nat ->
            (length (operators.decodeByteEscapes e) <= String.length e)%nat).
  { clear expr. induction n as [n IH] using lt_wf_ind. intros e Hle.
    destruct e as [| c rest]; [simpl; lia |].
    cbn [operators.decodeByteEscapes]. cbn [String.length] in Hle |- *.
    assert (Hrest : (length (operators.decodeByteEscapes rest)
                     <= String.length rest)%nat)
      by (apply (IH (String.length rest)); lia).
    destruct (negb (byte_eqb c "\")); [cbn [length]; lia |].
    destruct rest as [| x [| h1 [| h2 rest']]];
      try (cbn [length]; rewrite Hlist; lia).
    destruct (negb (byte_eqb x "x")); [cbn [length]; lia |].
    destruct (strconv_UnquoteChar_x h1 h2); [| cbn [length]; lia].
    cbn [String.length] in Hle |- *.
    assert (Hrest' : (length (operators.decodeByteEscapes rest')
                      <= String.length rest')%nat)
      by (apply (IH (String.length rest')); lia).
    cbn [length]. lia. }
  apply (Hall (String.length expr)). lia.
Qed.

(** X10: which engine [newRX] chooses depends on the argument alone, not
    on the flag group put in front of it; on the text path the pattern
    compiled is the argument behind the flag group, and an error of the
    compiler is returned as it is. *)
Theorem newRX_choice_by_argument options :
  operators.newRX options
  = if operators.matchesArbitraryBytes (plugintypes.Arguments_ options)
    then operators.newBinaryRX options
    else
      match operators.regexp_Compile
              ((if operators.shouldNotUseMultilineRegexesOperatorByDefault
                then "(?s)" else "(?sm)") ++ plugintypes.Arguments_ options)
      with
      | Ok re => Ok (operators.Operator_rx {| operators.rx_re := re |})
      | Err err => Err err
      end.
Proof.
  rewrite <- matchesArbitraryBytes_rxData.
  destruct (operators.matchesArbitraryBytes (operators.rxData options)) eqn:E.
  - unfold operators.newRX. rewrite E. reflexivity.
  - apply newRX_text_path. exact E.
Qed.

(** X11: an argument of ASCII bytes in which no backslash is followed by
    the letter [x] always goes to the text compiler, behind the flag
    group. *)
Theorem newRX_text_for_plain_ascii options :
  isASCII (plugintypes.Arguments_ options) = true ->
  noHexEscape (plugintypes.Arguments_ options) = true ->
  operators.newRX options
  = match operators.regexp_Compile
            ((if operators.shouldNotUseMultilineRegexesOperatorByDefault
              then "(?s)" else "(?sm)") ++ plugintypes.Arguments_ options)
    with
    | Ok re => Ok (operators.Operator_rx {| operators.rx_re := re |})
    | Err err => Err err
    end.
Proof.
  intros Hascii Hno. apply newRX_text_path.
  rewrite matchesArbitraryBytes_rxData.
  unfold operators.matchesArbitraryBytes, utf8_Valid.
  rewrite decodeByteEscapes_no_escape by exact Hno.
  rewrite <- (app_nil_r (map byte_val _)).
  rewrite utf8_Valid_values_ascii_app by (apply isASCII_values; exact Hascii).
  reflexivity.
Qed.

Lemma utf8_first_stray v :
  128 <= v <= 193 \/ 245 <= v <= 255 -> utf8_first v = None.
Proof.
  intros Hv. unfold utf8_first, in_range.
  repeat match goal with
         | |- context [?a <=? ?b] => destruct (Z.leb_spec a b)
         | |- context [?a =? ?b] => destruct (Z.eqb_spec a b)
         end; cbn [andb]; try lia; reflexivity.
Qed.

(** X12: when the first backslash of the argument starts a byte escape
    whose value cannot start a UTF-8 sequence (0x80 to 0xC1, 0xF5 to 0xFF)
    and only ASCII bytes precede it, [newRX] takes the binary-safe path,
    whatever follows the escape. *)
Theorem newRX_binary_for_stray_byte pre h1 h2 post v :
  isASCII pre = true ->
  noBackslash pre = true ->
  strconv_UnquoteChar_x h1 h2 = Some v ->
  128 <= v <= 193 \/ 245 <= v <= 255 ->
  operators.newRX
    {| plugintypes.Arguments_ := pre ++ "\x" ++ String h1 (String h2 post) |}
  = operators.newBinaryRX
      {| plugintypes.Arguments_ := pre ++ "\x" ++ String h1 (String h2 post) |}.
Proof.
  intros Hascii Hplain Hesc Hv.
  unfold operators.newRX. rewrite matchesArbitraryBytes_rxData.
  cbn [plugintypes.Arguments_].
  unfold operators.matchesArbitraryBytes, utf8_Valid.
  rewrite decodeByteEscapes_plain_prefix by exact Hplain.
  change ("\x" ++ String h1 (String h2 post))
    with (String "\" (String "x" (String h1 (String h2 post)))).
  cbn [operators.decodeByteEscapes].
  change (byte_eqb "\" "\") with true. change (byte_eqb "x" "x") with true.
  cbn [negb]. rewrite Hesc, map_app.
  rewrite utf8_Valid_values_ascii_app by (apply isASCII_values; exact Hascii).
  cbn [map utf8_Valid_values].
  rewrite byte_val_of_Z by lia.
  destruct (Z.ltb_spec v 128); [lia |].
  rewrite utf8_first_stray by exact Hv. reflexivity.
Qed.
End engine_choice.

(** ** The [rx] operator: what [Evaluate] leaves alone *)

Section capture_frame.
Context `{Variables}.

(** The capture loop is the sequence of its [CaptureField] calls. *)
Lemma captureLoop_as_calls match_ : forall i tx,
  0 <= i <= 9 ->
  operators.captureLoop i match_ tx
  = foldl (fun t (ic : Z * string) =>
             plugintypes.CaptureField (fst ic) (snd ic) t) tx
      (imap (fun j c => (i + Z.of_nat j, c))
         (take (Z.to_nat (9 - i)) match_)).
Proof.
  induction match_ as [| c rest IH]; intros i tx Hi.
  - rewrite take_nil. reflexivity.
  - cbn [operators.captureLoop].
    destruct (Z.eqb_spec i 9) as [-> | Hne]; [reflexivity |].
    rewrite IH by lia.
    replace (Z.to_nat (9 - i)) with (S (Z.to_nat (9 - (i + 1)))) by lia.
    cbn [take imap foldl fst snd]. rewrite Z.add_0_r. f_equal.
    apply imap_ext. intros j x _. cbn. f_equal. lia.
Qed.

(** X13: [Evaluate] (text or binary variant) acts on the transaction
    through [CaptureField] alone: outside capturing mode it returns the
    verdict of [MatchString] and the transaction as it was, and in
    capturing mode it returns whether the match has a text, and the
    transaction after the calls [CaptureField(i, text i)] for the first
    nine texts of the match, in increasing order of [i] (no call when
    there is no match). *)
Theorem Evaluate_acts_through_CaptureField op tx value :
  operators.Evaluate op tx value
  = if plugintypes.Capturing tx
    then
      (negb (length (operators.FindStringSubmatch
                       (operators.Operator_re op) value) =? 0)%nat,
       foldl (fun t (ic : Z * string) =>
                plugintypes.CaptureField (fst ic) (snd ic) t) tx
         (imap (fun i c => (Z.of_nat i, c))
            (take 9 (operators.FindStringSubmatch
                       (operators.Operator_re op) value))))
    else (operators.MatchString (operators.Operator_re op) value, tx).
Proof.
  destruct (plugintypes.Capturing tx) eqn:Hcap.
  - rewrite (Evaluate_capturing op tx value Hcap).
    destruct (operators.FindStringSubmatch (operators.Operator_re op) value)
      as [| c rest]; [reflexivity |].
    rewrite captureLoop_as_calls by lia. reflexivity.
  - apply Evaluate_not_capturing. exact Hcap.
Qed.

(** X14: a match with fewer than nine texts overwrites only the slots it
    has texts for: every slot from the number of texts on keeps what an
    earlier match left there. *)
Theorem Evaluate_keeps_higher_slots op tx value j :
  plugintypes.Capturing tx = true ->
  Z.of_nat (length (operators.FindStringSubmatch
                      (operators.Operator_re op) value)) <= j ->
  plugintypes.tx_captures (snd (operators.Evaluate op tx value)) !! j
  = plugintypes.tx_captures tx !! j.
Proof.
  intros Hcap Hj. rewrite (Evaluate_capturing op tx value Hcap).
  destruct (operators.FindStringSubmatch (operators.Operator_re op) value)
    as [| c rest] eqn:Ematch; [reflexivity |].
  cbn [snd]. rewrite captureLoop_captures by lia.
  case_decide; [lia | reflexivity].
Qed.
End capture_frame.

(** ** The [deny] action: what the interruption never holds *)

Section deny_invariants.
Context `{Variables}.

(** X15: the interruption [deny] sets never has status 0, and its rule ID
    is 0 only when both the rule's ID and the parent's ID are 0. *)
Theorem denyFn_Evaluate_status_not_zero r tx :
  exists i,
    plugintypes.tx_interruption (actions.denyFn_Evaluate r tx) = Some i
    /\ (types.Status i =? 0) = false
    /\ (types.RuleID i =? 0)
       = (plugintypes.ID r =? 0) && (plugintypes.ParentID r =? 0).
Proof.
  unfold actions.denyFn_Evaluate, actions.noID, actions.noStatus,
    actions.http_StatusForbidden.
  eexists. split; [reflexivity |]. cbn.
  destruct (Z.eqb_spec (plugintypes.Status r) 0) as [Hst | Hst];
    destruct (Z.eqb_spec (plugintypes.ID r) 0) as [Hid | Hid];
    split; try reflexivity; try (apply Z.eqb_neq; assumption).
Qed.
End deny_invariants.

(** ** Named collections: [Data], [Len] and the names view *)

Section collection_views.
Context `{Variables}.

Lemma foldl_insert_other {A B} (f : A -> B) (l : list (string * A)) :
  forall (acc : gmap string B) k,
  ~ In k (map fst l) ->
  foldl (fun res kv => <[fst kv := f (snd kv)]> res) acc l !! k = acc !! k.
Proof.
  induction l as [| [k' v'] l IH]; intros acc k Hk; [reflexivity |].
  cbn [foldl fst snd]. rewrite IH by (intros Hin; apply Hk; right; exact Hin).
  apply lookup_insert_ne. intros ->. apply Hk. left. reflexivity.
Qed.

Lemma foldl_insert_found {A B} (f : A -> B) (l : list (string * A)) :
  forall (acc : gmap string B) k v,
  List.NoDup (map fst l) ->
  In (k, v) l ->
  foldl (fun res kv => <[fst kv := f (snd kv)]> res) acc l !! k
  = Some (f v).
Proof.
  induction l as [| [k' v'] l IH]; intros acc k v Hnd Hin; [destruct Hin |].
  cbn [map fst] in Hnd. apply List.NoDup_cons_iff in Hnd as [Hk' Hnd].
  cbn [foldl fst snd]. destruct Hin as [[= -> ->] | Hin].
  - rewrite foldl_insert_other by exact Hk'. apply lookup_insert_eq.
  - apply IH; assumption.
Qed.

Lemma NoDup_keys_map_to_list {A} (m : gmap string A) :
  List.NoDup (map fst (map_to_list m)).
Proof. apply NoDup_ListNoDup, NoDup_fst_map_to_list. Qed.

Lemma In_map_to_list {A} (m : gmap string A) k v :
  In (k, v) (map_to_list m) <-> m !! k = Some v.
Proof. rewrite <- list_elem_of_In. apply elem_of_map_to_list. Qed.

Lemma keys_map_to_list_None {A} (m : gmap string A) k :
  m !! k = None -> ~ In k (map fst (map_to_list m)).
Proof.
  intros Hnone Hin. apply in_map_iff in Hin as ([k' v] & Hk & Hin).
  cbn [fst] in Hk. subst k'. apply In_map_to_list in Hin. congruence.
Qed.

(** What [Data] holds under a key. *)
Lemma Data_lookup c k :
  collections.Data c !! k
  = map collections.value <$> collections.data (collections.Map_ c) !! k.
Proof.
  unfold collections.Data.
  destruct (collections.data (collections.Map_ c) !! k) as [ds |] eqn:Hk.
  - cbn. apply (foldl_insert_found (map collections.value));
      [apply NoDup_keys_map_to_list | apply In_map_to_list; exact Hk].
  - cbn. rewrite (foldl_insert_other (map collections.value))
      by (apply keys_map_to_list_None; exact Hk).
    apply lookup_empty.
Qed.

Lemma Data_as_fmap c :
  collections.Data c
  = map collections.value <$> collections.data (collections.Map_ c).
Proof. apply map_eq. intros k. rewrite Data_lookup, lookup_fmap. reflexivity. Qed.

(** X16: [Data] has exactly the keys of the collection and holds under
    each key the values of the entries stored there, in their order; [Len]
    is the number of its keys. *)
Theorem Data_holds_values_by_key c :
  (forall k,
     collections.Data c !! k
     = map collections.value
         <$> collections.data (collections.Map_ c) !! k)
  /\ collections.Len c = Z.of_nat (size (collections.Data c)).
Proof.
  split; [apply Data_lookup |].
  rewrite Data_as_fmap, map_size_fmap. reflexivity.
Qed.

(** The records of one key chosen among pairs with distinct keys. *)
Lemma flat_map_select {A B} (f : A -> list B) (l : list (string * A)) key :
  List.NoDup (map fst l) ->
  flat_map (fun kd : string * A =>
              if negb (String.eqb (fst kd) key) then [] else f (snd kd)) l
  = match List.find (fun kd => String.eqb (fst kd) key) l with
    | Some kd => f (snd kd)
    | None => []
    end.
Proof.
  induction l as [| [k v] l IH]; intros Hnd; [reflexivity |].
  cbn [map fst] in Hnd. apply List.NoDup_cons_iff in Hnd as [Hk Hnd].
  cbn [flat_map List.find fst snd].
  destruct (String.eqb_spec k key) as [-> | Hne]; cbn [negb].
  - rewrite IH by exact Hnd.
    destruct (List.find _ l) as [[k' v'] |] eqn:Hfind; [| apply app_nil_r].
    apply List.find_some in Hfind as [Hin Heq]. cbn [fst] in Heq.
    apply String.eqb_eq in Heq. subst k'.
    exfalso. apply Hk. apply in_map_iff. exists (key, v'). auto.
  - apply IH. exact Hnd.
Qed.

Lemma find_map_to_list {A} (m : gmap string A) key :
  snd <$> List.find (fun kd => String.eqb (fst kd) key) (map_to_list m)
  = m !! key.
Proof.
  destruct (List.find _ (map_to_list m)) as [[k v] |] eqn:Hfind.
  - apply List.find_some in Hfind as [Hin Heq]. cbn [fst] in Heq.
    apply String.eqb_eq in Heq. subst k.
    apply In_map_to_list in Hin. rewrite Hin. reflexivity.
  - destruct (m !! key) as [v |] eqn:Hk; [| reflexivity].
    apply In_map_to_list in Hk.
    apply (List.find_none _ _ Hfind) in Hk. cbn [fst] in Hk.
    rewrite String.eqb_refl in Hk. discriminate.
Qed.

(** X17: [FindString] of the names view returns one record per entry
    stored under exactly the given key, in the order of the entries, and
    nothing when the map has no such key; it does not fold the case of the
    key. *)
Theorem FindString_records_of_key c key :
  collections.FindString c key
  = map (fun d => {| types.Variable_ := collections.variable c;
                     types.Key_ := collections.key d;
                     types.Value_ := collections.key d |})
        (default []
           (collections.data (collections.Map_ (collections.collection c))
              !! key)).
Proof.
  unfold collections.FindString, collections.rangeData.
  rewrite (flat_map_select (collections.namesOf c))
    by apply NoDup_keys_map_to_list.
  rewrite <- find_map_to_list.
  destruct (List.find _ _) as [[k ds] |]; reflexivity.
Qed.

(** X18: every record [FindString] or [FindRegex] of the names view
    returns is among the records of [FindAll]. *)
Theorem FindString_FindRegex_within_FindAll c key re r :
  In r (collections.FindString c key ++ collections.FindRegex c re) ->
  In r (collections.FindAll c).
Proof.
  intros Hin. apply In_FindAll.
  apply in_app_or in Hin as [Hin | Hin].
  - apply In_FindString in Hin as (ds & d & Hk & Hd & ->).
    exists key, ds, d. auto.
  - apply In_FindRegex in Hin as (k & ds & d & Hk & _ & Hd & ->).
    exists k, ds, d. auto.
Qed.

Lemma length_namesOf c ds :
  length (collections.namesOf c ds) = length ds.
Proof. unfold collections.namesOf. apply length_map. Qed.

(** X19: [FindAll] of the names view returns as many records as [Data] of
    the collection holds values. *)
Theorem FindAll_counts_values nc rv :
  length (collections.FindAll (collections.Names nc rv))
  = sum_list_with (fun kv : string * list string => length (snd kv))
      (map_to_list (collections.Data nc)).
Proof.
  rewrite Data_as_fmap, map_to_list_fmap.
  unfold collections.FindAll, collections.rangeData.
  cbn [collections.Names collections.collection].
  induction (map_to_list (collections.data (collections.Map_ nc)))
    as [| [k ds] l IH]; [reflexivity |].
  cbn [flat_map snd]. rewrite length_app, length_namesOf, IH.
  cbn. rewrite length_map. reflexivity.
Qed.

Lemma foldl_writeKey_rest ds : forall res,
  foldl collections.writeKey (res, false) ds
  = (foldl (fun b s => b ++ "," ++ s) res (map collections.key ds), false).
Proof.
  induction ds as [| d ds IH]; intros res; [reflexivity |].
  cbn [foldl map]. unfold collections.writeKey at 2. cbn [fst snd].
  rewrite IH, string_app_assoc. reflexivity.
Qed.

Lemma foldl_join_prefix (a : string) l : forall e,
  foldl (fun b s => b ++ "," ++ s) (a ++ e) l
  = a ++ foldl (fun b s => b ++ "," ++ s) e l.
Proof.
  induction l as [| s l IH]; intros e; [reflexivity |].
  cbn [foldl]. rewrite string_app_assoc. apply IH.
Qed.

Lemma foldl_writeKey_all ds res :
  fst (foldl collections.writeKey (res, true) ds)
  = res ++ strings_Join (map collections.key ds) ",".
Proof.
  destruct ds as [| d ds]; [symmetry; apply string_app_nil_r |].
  cbn [foldl map strings_Join]. unfold collections.writeKey at 2.
  cbn [fst snd]. rewrite foldl_writeKey_rest. cbn [fst].
  apply foldl_join_prefix.
Qed.

Lemma foldl_nested {A B C} (f : A -> B -> A) (g : C -> list B) l : forall a,
  foldl (fun st x => foldl f st (g x)) a l = foldl f a (flat_map g l).
Proof.
  induction l as [| x l IH]; intros a; [reflexivity |].
  cbn [foldl flat_map]. rewrite foldl_app. apply IH.
Qed.

(** The keys of the entries, pair by pair. *)
Lemma keys_of_entries_Permutation (l1 l2 : list (string * list collections.keyValue)) :
  Permutation l1 l2 ->
  Permutation (map collections.key (flat_map snd l1))
              (map collections.key (flat_map snd l2)).
Proof.
  intros Hperm. apply Permutation_map.
  induction Hperm as [| x l l' _ IH | x y l | l l' l'' _ IH1 _ IH2].
  - reflexivity.
  - cbn [flat_map]. apply Permutation_app_head. exact IH.
  - cbn [flat_map]. rewrite !app_assoc.
    apply Permutation_app_tail, Permutation_app_comm.
  - etransitivity; eassumption.
Qed.

Lemma keys_of_FindAll c :
  map types.Key_ (collections.FindAll c)
  = map collections.key (flat_map snd (collections.rangeData c)).
Proof.
  unfold collections.FindAll.
  induction (collections.rangeData c) as [| [k ds] l IH]; [reflexivity |].
  cbn [flat_map snd]. rewrite !map_app, IH. f_equal.
  unfold collections.namesOf. rewrite map_map. reflexivity.
Qed.

(** X20: whatever the order in which its range loop visits the map,
    [String] of the names view is the name of its variable, a colon and a
    blank, and the keys of the entries joined by commas, pair by pair in
    the order of the visit and entry by entry in the stored order; the
    keys it lists are, up to their order, the keys [FindAll] reports. *)
Theorem names_view_String_lists_keys c order :
  Permutation order
    (map_to_list
       (collections.data (collections.Map_ (collections.collection c)))) ->
  collections.String_ c order
  = collections.Name c ++ ": "
    ++ strings_Join (map collections.key (flat_map snd order)) ","
  /\ Permutation (map collections.key (flat_map snd order))
       (map types.Key_ (collections.FindAll c)).
Proof.
  intros Hperm. split.
  - unfold collections.String_, collections.Name.
    rewrite (foldl_nested collections.writeKey snd).
    rewrite foldl_writeKey_all, string_app_assoc. reflexivity.
  - rewrite keys_of_FindAll. apply keys_of_entries_Permutation. exact Hperm.
Qed.
End collection_views.

(** ** Further properties at work on concrete inputs *)

(** A template of literal text, with a percent sign and a brace that do not
    form an opener. *)
Lemma NewMacro_literal_round_trip_witness :
  macro.NewMacro "100% of {it}"
  = Ok {| macro.original := "100% of {it}";
          macro.tokens := [macro.literalToken "100% of {it}"] |}
  /\ macro.Expand {| macro.original := "100% of {it}";
                     macro.tokens := [macro.literalToken "100% of {it}"] |}
       (exampleTx false [])
     = ("100% of {it}", exampleTx false []).
Proof.
  destruct (NewMacro_literal_round_trip "100% of {it}") as [Hnew Hexp].
  - simpl. lia.
  - reflexivity.
  - split; [exact Hnew | apply Hexp].
Defined.

(** The template [a %{tx.} b]. *)
Lemma NewMacro_rejects_empty_key_witness :
  macro.NewMacro "a %{tx.} b" = Err macro.errEmptyVariableName.
Proof.
  exact (proj2 (NewMacro_rejects_empty_key "a " "tx" " b" eq_refl) eq_refl).
Defined.

(** The template [%{unknownscope.x}]. *)
Lemma NewMacro_rejects_unknown_variable_witness :
  macro.NewMacro "%{unknownscope.x}"
  = Err (macro.errUnknownVariable "unknownscope").
Proof.
  exact (proj2 (NewMacro_rejects_unknown_variable EmptyString
                  "unknownscope.x" EmptyString "unknownscope" "x" true
                  eq_refl eq_refl eq_refl eq_refl) eq_refl).
Defined.

(** The template [%{tx.a b}]: a blank inside a reference. *)
Lemma NewMacro_rejects_invalid_byte_witness :
  macro.NewMacro "%{tx.a b}" = Err (macro.errMalformedVariable "%{tx.a").
Proof.
  exact (proj2 (NewMacro_rejects_invalid_byte EmptyString "tx.a" " " "b}"
                  eq_refl eq_refl eq_refl eq_refl) eq_refl).
Defined.

(** The template [Hello %{tx.Name}!] with [name] set to [World]. *)
Lemma Expand_reference_in_text_witness :
  exists m,
    macro.NewMacro "Hello %{tx.Name}!" = Ok m
    /\ macro.Expand m (exampleTx false [("name", "World")])
       = ("Hello World!", exampleTx false [("name", "World")]).
Proof.
  apply (@Expand_reference_in_text exampleVariables
           "Hello " "tx.Name" "!" "tx" "Name" true vTX
           (exampleTx false [("name", "World")])
           (collections.Map_asKeyed (txCollection [("name", "World")]))
           "World" []);
    try reflexivity.
  discriminate.
Defined.

(** The template [%{tx.a%{tx.b}]. *)
Lemma NewMacro_opener_inside_reference_witness :
  macro.NewMacro "%{tx.a%{tx.b}"
  = Ok {| macro.original := "%{tx.a%{tx.b}";
          macro.tokens :=
            [macro.literalToken "tx.a";
             {| macro.text := "tx.b"; macro.variable := vTX;
                macro.key := "b" |}] |}.
Proof.
  apply (@NewMacro_opener_inside_reference exampleVariables
           "tx.a" "tx.b" "tx" "b" true vTX);
    reflexivity.
Defined.

(** [String] of the macro compiled from [a %{tx.b} c]. *)
Lemma NewMacro_String_round_trip_witness :
  macro.String_
    {| macro.original := "a %{tx.b} c";
       macro.tokens :=
         [macro.literalToken "a ";
          {| macro.text := "tx.b"; macro.variable := vTX; macro.key := "b" |};
          macro.literalToken " c"] |}
  = "a %{tx.b} c".
Proof.
  apply (NewMacro_String_round_trip "a %{tx.b} c"). reflexivity.
Defined.

(** The argument [^\d+[a-z]*$] goes to the text compiler. *)
Lemma newRX_text_for_plain_ascii_witness :
  operators.newRX {| plugintypes.Arguments_ := "^\d+[a-z]*$" |}
  = match operators.regexp_Compile ("(?sm)" ++ "^\d+[a-z]*$") with
    | Ok re => Ok (operators.Operator_rx {| operators.rx_re := re |})
    | Err err => Err err
    end.
Proof.
  exact (@newRX_text_for_plain_ascii exampleEngines
           {| plugintypes.Arguments_ := "^\d+[a-z]*$" |} eq_refl eq_refl).
Defined.

(** The argument [a\xFFb+] goes to the binary-safe compiler. *)
Lemma newRX_binary_for_stray_byte_witness :
  operators.newRX {| plugintypes.Arguments_ := "a\xFFb+" |}
  = operators.newBinaryRX {| plugintypes.Arguments_ := "a\xFFb+" |}.
Proof.
  assert (Hv : 128 <= 255 <= 193 \/ 245 <= 255 <= 255) by (right; lia).
  exact (@newRX_binary_for_stray_byte exampleEngines
           "a" "F" "F" "b+" 255 eq_refl eq_refl eq_refl Hv).
Defined.

(** A match with one text on a transaction that holds an older capture in
    slot 3. *)
Lemma Evaluate_keeps_higher_slots_witness :
  plugintypes.tx_captures
    (snd (operators.Evaluate
            (operators.Operator_rx {| operators.rx_re := literalRegexp "ab" |})
            (plugintypes.CaptureField 3 "old" (exampleTx true []))
            "xaby")) !! 3
  = Some "old".
Proof.
  rewrite (Evaluate_keeps_higher_slots
             (operators.Operator_rx {| operators.rx_re := literalRegexp "ab" |})
             (plugintypes.CaptureField 3 "old" (exampleTx true []))
             "xaby" 3).
  - reflexivity.
  - reflexivity.
  - vm_compute. discriminate.
Defined.

(** A record that [FindString] returns on a collection with two keys. *)
Lemma FindString_FindRegex_within_FindAll_witness :
  In {| types.Variable_ := vARGS_NAMES; types.Key_ := "Foo";
        types.Value_ := "Foo" |}
     (collections.FindAll
        (collections.Names
           (collections.NamedCollection_Add
              (collections.NamedCollection_Add
                 (collections.NewNamedCollection vARGS) "Foo" "bar")
              "id" "7")
           vARGS_NAMES)).
Proof.
  apply (FindString_FindRegex_within_FindAll _ "foo" (literalRegexp "zz")).
  vm_compute. left. reflexivity.
Defined.

(** A collection with two keys, its range loop visiting the pairs in the
    reverse of the order the find operations use. *)
Lemma names_view_String_lists_keys_witness :
  collections.String_
    (collections.Names
       (collections.NamedCollection_Add
          (collections.NamedCollection_Add
             (collections.NewNamedCollection vARGS) "Foo" "bar")
          "id" "7")
       vARGS_NAMES)
    [("foo", [{| collections.key := "Foo"; collections.value := "bar" |}]);
     ("id", [{| collections.key := "id"; collections.value := "7" |}])]
  = "ARGS_NAMES: Foo,id".
Proof.
  assert (Hperm :
    Permutation
      [("foo", [{| collections.key := "Foo"; collections.value := "bar" |}]);
       ("id", [{| collections.key := "id"; collections.value := "7" |}])]
      (map_to_list
         (collections.data
            (collections.Map_
               (collections.collection
                  (collections.Names
                     (collections.NamedCollection_Add
                        (collections.NamedCollection_Add
                           (collections.NewNamedCollection vARGS) "Foo" "bar")
                        "id" "7")
                     vARGS_NAMES)))))).
  { vm_compute. apply perm_swap. }
  destruct (names_view_String_lists_keys _ _ Hperm) as [Hstr _].
  rewrite Hstr. reflexivity.
Defined.
